(** * The chunking and retrieval core of the PDF-to-Markdown RAG service

    A shallow embedding of [PDFToMarkdownRAG.chunk_text],
    [PDFToMarkdownRAG.add_document_to_store] and
    [PDFToMarkdownRAG.query_documents] from [src/app.py], with the
    properties the specification states about them.

    Python [str] values are sequences of Unicode code points: they are
    modelled as lists of code points ([N]).  Python [int] values are
    unbounded: they are modelled as [Z]. *)

From Stdlib Require Import ZArith NArith QArith Lia Lqa List String Ascii.
From Stdlib Require DecimalNat.
From stdpp Require Import base list gmap.

Local Open Scope Z_scope.

(** ** Python strings *)

Module Py.

Definition char := N.
Definition str := list char.

(** A string literal, read as its code points. *)
Definition lit (s : string) : str :=
  List.map N_of_ascii (list_ascii_of_string s).

Definition period : char := 46%N.
Definition newline : char := 10%N.

(** [len(s)] *)
Definition len {A} (s : list A) : Z := Z.of_nat (length s).

(** [ch.isspace()], as [str.strip()] uses it with no argument: the white
    space code points of Unicode. *)
Definition is_space (c : char) : bool :=
  ((9 <=? c) && (c <=? 13) || (28 <=? c) && (c <=? 32) ||
   (c =? 133) || (c =? 160) || (c =? 5760) ||
   (8192 <=? c) && (c <=? 8202) ||
   (c =? 8232) || (c =? 8233) || (c =? 8239) || (c =? 8287) ||
   (c =? 12288))%N.

(** [s.lstrip()], [s.rstrip()], [s.strip()] *)
Fixpoint lstrip (s : str) : str :=
  match s with
  | c :: s' => if is_space c then lstrip s' else s
  | [] => []
  end.

Definition rstrip (s : str) : str := reverse (lstrip (reverse s)).

Definition strip (s : str) : str := rstrip (lstrip s).

(** The bound of a slice, as Python clamps it: a negative index counts
    from the end, and what falls outside is brought back to [0] or
    [len]. *)
Definition slice_index (n i : Z) : Z :=
  if i <? 0 then Z.max 0 (n + i) else Z.min i n.

(** [s[a:b]] *)
Definition slice {A} (s : list A) (a b : Z) : list A :=
  let lo := slice_index (len s) a in
  let hi := slice_index (len s) b in
  take (Z.to_nat (hi - lo)) (drop (Z.to_nat lo) s).

(** [s[:b]] *)
Definition slice_to {A} (s : list A) (b : Z) : list A :=
  take (Z.to_nat (slice_index (len s) b)) s.

(** [s.rfind(c)] for a one-character [c]: the highest index of [c] in
    [s], or [-1]. *)
Fixpoint rfind (c : char) (s : str) : Z :=
  match s with
  | [] => -1
  | x :: s' =>
      let r := rfind c s' in
      if 0 <=? r then r + 1
      else if (x =? c)%N then 0 else -1
  end.

(** The decimal digits. *)
Definition is_digit (c : char) : bool := ((48 <=? c) && (c <=? 57))%N.

(** [str(i)] for [i] a non-negative integer: its decimal digits. *)
Fixpoint digits (d : Decimal.uint) : str :=
  match d with
  | Decimal.Nil => []
  | Decimal.D0 d => 48%N :: digits d
  | Decimal.D1 d => 49%N :: digits d
  | Decimal.D2 d => 50%N :: digits d
  | Decimal.D3 d => 51%N :: digits d
  | Decimal.D4 d => 52%N :: digits d
  | Decimal.D5 d => 53%N :: digits d
  | Decimal.D6 d => 54%N :: digits d
  | Decimal.D7 d => 55%N :: digits d
  | Decimal.D8 d => 56%N :: digits d
  | Decimal.D9 d => 57%N :: digits d
  end.

Definition str_of_nat (i : nat) : str := digits (Nat.to_uint i).

End Py.

Import Py.

(** ** The chunker *)

(** The body of one turn of the loop of [chunk_text], up to the choice
    of the chunk and of its end: the candidate [text[start:end]], cut
    back to [break_point + 1] when the test of the source passes. *)
Definition chunk_window (text : str) (chunk_size start : Z) : str * Z :=
  let end_ := start + chunk_size in
  let chunk := slice text start end_ in
  if end_ <? len text then
    let last_period := rfind period chunk in
    let last_newline := rfind newline chunk in
    let break_point := Z.max last_period last_newline in
    if break_point >? start + chunk_size / 2 then
      (slice text start (break_point + 1), break_point + 1)
    else (chunk, end_)
  else (chunk, end_).

(** The same turn as the specification words it, to compare with the
    code: the break point is the place in the text, [start] plus the
    offset in the window, of the last period or newline of the window. *)
Definition chunk_window_spec (text : str) (chunk_size start : Z) : str * Z :=
  let end_ := start + chunk_size in
  let chunk := slice text start end_ in
  if end_ <? len text then
    let offset := Z.max (rfind period chunk) (rfind newline chunk) in
    let break_point := start + offset in
    if (0 <=? offset) && (break_point >? start + chunk_size / 2) then
      (slice text start (break_point + 1), break_point + 1)
    else (chunk, end_)
  else (chunk, end_).

(** The [while] loop of [chunk_text].  The loop of the source need not
    end, so the model counts its turns: [None] says that [fuel] turns
    were not enough. *)
Fixpoint chunk_loop (fuel : nat) (text : str) (chunk_size overlap : Z)
    (start : Z) (chunks : list str) : option (list str) :=
  match fuel with
  | O => None
  | S fuel' =>
      if start <? len text then
        let '(chunk, end_) := chunk_window text chunk_size start in
        let chunks' := chunks ++ [strip chunk] in
        let start' := end_ - overlap in
        if start' >=? len text then Some chunks'
        else chunk_loop fuel' text chunk_size overlap start' chunks'
      else Some chunks
  end.

(** [[chunk for chunk in chunks if chunk]] *)
Definition nonempty_chunks (chunks : list str) : list str :=
  filter (λ chunk : str, chunk ≠ []) chunks.

Definition chunk_text_fuel (fuel : nat) (text : str)
    (chunk_size overlap : Z) : option (list str) :=
  nonempty_chunks <$> chunk_loop fuel text chunk_size overlap 0 [].

(** [chunk_text(text, chunk_size, overlap)] returns [r]. *)
Definition chunk_text_returns (text : str) (chunk_size overlap : Z)
    (r : list str) : Prop :=
  ∃ fuel, chunk_text_fuel fuel text chunk_size overlap = Some r.

(** [chunk_text(text, chunk_size, overlap)] returns. *)
Definition chunk_text_terminates (text : str) (chunk_size overlap : Z) : Prop :=
  ∃ r, chunk_text_returns text chunk_size overlap r.

(** The same loop, recording for each turn the cursor it started from
    and the end it chose, in place of the text between them. *)
Fixpoint chunk_trace (fuel : nat) (text : str) (chunk_size overlap : Z)
    (start : Z) : option (list (Z * Z)) :=
  match fuel with
  | O => None
  | S fuel' =>
      if start <? len text then
        let end_ := (chunk_window text chunk_size start).2 in
        let start' := end_ - overlap in
        if start' >=? len text then Some [(start, end_)]
        else cons (start, end_) <$> chunk_trace fuel' text chunk_size overlap start'
      else Some []
  end.

(** The text of a window, as [chunk_text] keeps it. *)
Definition window_chunk (text : str) (w : Z * Z) : str :=
  strip (slice text w.1 w.2).

(** [chunk_text(text)], with the default [chunk_size=1000] and
    [overlap=200]; [chunk_text_default_returns] shows that the loop has
    ended within the turns given here. *)
Definition chunk_text_default (text : str) : list str :=
  default [] (chunk_text_fuel (S (length text)) text 1000 200).

(** ** Words of the properties *)

(** [c] is a run of consecutive characters of [t]. *)
Definition substring (c t : str) : Prop :=
  ∃ pre post, t = pre ++ c ++ post.

(** [c] neither starts nor ends with white space. *)
Definition trimmed (c : str) : Prop :=
  (∀ x, head c = Some x → is_space x = false) ∧
  (∀ x, last c = Some x → is_space x = false).

(** Position [p] of the text lies in the window [w]. *)
Definition in_window (p : Z) (w : Z * Z) : Prop := w.1 <= p < w.2.

(** Each window starts at or before the end of the one before it. *)
Fixpoint windows_chained (ws : list (Z * Z)) : Prop :=
  match ws with
  | w1 :: ((w2 :: _) as ws') => w2.1 <= w1.2 ∧ windows_chained ws'
  | _ => True
  end.

(** ** Ingestion and retrieval *)

Inductive result (E A : Type) : Type :=
  | Ok (a : A)
  | Err (e : E).
Arguments Ok {E A} a.
Arguments Err {E A} e.

(** [HTTPException(status_code=..., detail=...)] *)
Record http_exception := HTTPException {
  status_code : Z;
  detail : str
}.

(** The metadata written with a chunk. *)
Record metadata := Metadata {
  md_document_id : str;
  md_filename : str;
  md_chunk_index : nat;
  md_chunk_text : str
}.

(** An entry of [document_store]. *)
Record doc_info := DocInfo {
  di_filename : str;
  di_markdown_content : str;
  di_chunk_count : nat;
  di_doc_id : str
}.

(** One formatted result of a query, and the answer of
    [query_documents]. *)
Record query_result := QueryResult {
  content : str;
  qr_metadata : metadata;
  similarity_score : Q
}.

Record query_response := QueryResponse {
  qr_query : str;
  results : list query_result;
  total_results : nat
}.

(** What [collection.query] answers: one list per query embedding. *)
Record store_reply := StoreReply {
  documents : list (list str);
  metadatas : list (list metadata);
  distances : list (list Q)
}.

(** [chunk[:200] + "..." if len(chunk) > 200 else chunk] *)
Definition preview (chunk : str) : str :=
  if len chunk >? 200 then slice_to chunk 200 ++ lit "..." else chunk.

(** [f"{doc_id}_chunk_{i}"] *)
Definition chunk_id (doc_id : str) (i : nat) : str :=
  doc_id ++ lit "_chunk_" ++ str_of_nat i.

(** [[f"{doc_id}_chunk_{i}" for i in range(len(chunks))]] *)
Definition chunk_ids_of (doc_id : str) (chunks : list str) : list str :=
  chunk_id doc_id <$> seq 0 (length chunks).

(** The list of metadata built over [enumerate(chunks)]. *)
Definition metadatas_of (doc_id filename : str) (chunks : list str) : list metadata :=
  imap (λ i chunk, Metadata doc_id filename i (preview chunk)) chunks.

(** The embedding model and the vector store are outside the program:
    they are taken as an interface.  A call either answers or raises, and
    a raised exception [e] is kept as its message [str(e)]. *)
Class Collaborators := {
  Vector : Type;
  Store : Type;
  (** [embedding_model.encode(texts).tolist()] *)
  encode : list str → result str (list Vector);
  (** [collection.add(embeddings=..., documents=..., metadatas=..., ids=...)] *)
  collection_add :
    Store → list Vector → list str → list metadata → list str → result str Store;
  (** [collection.query(query_embeddings=..., n_results=..., include=[...])] *)
  collection_query : Store → list Vector → Z → result str store_reply
}.

(** The calls made to the collaborators, in order. *)
Inductive call `{Collaborators} : Type :=
  | CallEncode (texts : list str)
  | CallAdd (embeddings : list Vector) (docs : list str)
      (metas : list metadata) (ids : list str)
  | CallQuery (query_embeddings : list Vector) (n_results : Z).

(** The globals of the module: the collection and [document_store], with
    the calls made so far. *)
Record world `{Collaborators} := World {
  collection : Store;
  document_store : gmap str doc_info;
  calls : list call
}.

Section Pipelines.
Context `{Collaborators}.

(** Code that reads and writes the globals and may raise. *)
Definition M (A : Type) : Type := world → result str A * world.

#[local] Instance M_ret : MRet M := λ A a w, (Ok a, w).

#[local] Instance M_bind : MBind M := λ A B f m w,
  match m w with
  | (Ok a, w') => f a w'
  | (Err e, w') => (Err e, w')
  end.

Definition raise {A} (e : str) : M A := λ w, (Err e, w).

Definition logged (c : call) (w : world) : world :=
  World _ (collection w) (document_store w) (calls w ++ [c]).

Definition call_encode (texts : list str) : M (list Vector) :=
  λ w, (encode texts, logged (CallEncode texts) w).

Definition call_add (embeddings : list Vector) (docs : list str)
    (metas : list metadata) (ids : list str) : M unit :=
  λ w,
    let w' := logged (CallAdd embeddings docs metas ids) w in
    match collection_add (collection w) embeddings docs metas ids with
    | Ok st => (Ok (), World _ st (document_store w') (calls w'))
    | Err e => (Err e, w')
    end.

Definition call_query (query_embeddings : list Vector) (n_results : Z)
    : M store_reply :=
  λ w, (collection_query (collection w) query_embeddings n_results,
        logged (CallQuery query_embeddings n_results) w).

(** [document_store[doc_id] = info] *)
Definition set_document (doc_id : str) (info : doc_info) : M unit :=
  λ w, (Ok (), World _ (collection w) (<[doc_id := info]> (document_store w)) (calls w)).

(** [l[i]], which raises [IndexError] out of range. *)
Definition index {A} (l : list A) (i : nat) : M A :=
  match l !! i with
  | Some a => mret a
  | None => raise (lit "list index out of range")
  end.

(** [for x in l: out.append(f(x))] *)
Fixpoint for_each {A B} (f : A → M B) (l : list A) : M (list B) :=
  match l with
  | [] => mret []
  | x :: l' => y ← f x; ys ← for_each f l'; mret (y :: ys)
  end.

(** [try: body  except Exception as e: raise HTTPException(500, f"{prefix}{str(e)}")] *)
Definition try_except {A} (body : M A) (prefix : str)
    : world → result http_exception A * world :=
  λ w,
    match body w with
    | (Ok a, w') => (Ok a, w')
    | (Err e, w') => (Err (HTTPException 500 (prefix ++ e)), w')
    end.

Definition add_document_to_store (doc_id filename markdown_content : str)
    : world → result http_exception unit * world :=
  try_except
    (let chunks := chunk_text_default markdown_content in
     embeddings ← call_encode chunks;
     let chunk_ids := chunk_ids_of doc_id chunks in
     let metadatas := metadatas_of doc_id filename chunks in
     call_add embeddings chunks metadatas chunk_ids;;
     set_document doc_id
       (DocInfo filename markdown_content (length chunks) doc_id))
    (lit "Error adding document to store: ").

(** The body of the loop that formats the answer: the [i]-th result. *)
Definition format_result (reply : store_reply) (i : nat) : M query_result :=
  docs ← index (documents reply) 0%nat;
  doc ← index docs i;
  metas ← index (metadatas reply) 0%nat;
  meta ← index metas i;
  dists ← index (distances reply) 0%nat;
  dist ← index dists i;
  mret (QueryResult doc meta (1 - dist)%Q).

Definition query_documents (query : str) (n_results : Z)
    : world → result http_exception query_response * world :=
  try_except
    (query_embedding ← call_encode [query];
     reply ← call_query query_embedding n_results;
     docs ← index (documents reply) 0%nat;
     formatted_results ← for_each (format_result reply) (seq 0 (length docs));
     mret (QueryResponse query formatted_results (length formatted_results)))
    (lit "Error querying documents: ").

End Pipelines.

(** ** Words of the properties of retrieval *)

(** Distances as the store ranks them, and scores as the answer lists
    them. *)
Definition ascending (l : list Q) : Prop :=
  ∀ i j a b, (i ≤ j)%nat → l !! i = Some a → l !! j = Some b → (a <= b)%Q.

Definition non_increasing (l : list Q) : Prop :=
  ∀ i j a b, (i ≤ j)%nat → l !! i = Some a → l !! j = Some b → (b <= a)%Q.

(** The results that pair the [i]-th text, metadata and distance of a
    reply. *)
Definition paired_results (docs : list str) (metas : list metadata)
    (dists : list Q) : list query_result :=
  zip_with (λ dm dist, QueryResult dm.1 dm.2 (1 - dist)%Q) (zip docs metas) dists.

(** ** Collaborators used as examples *)

(** An embedding model that always fails. *)
Definition failing_embedder : Collaborators := {|
  Vector := unit;
  Store := unit;
  encode := λ _, Err (lit "model not loaded");
  collection_add := λ st _ _ _ _, Ok st;
  collection_query := λ _ _ _, Ok (StoreReply [[]] [[]] [[]])
|}.

(** A store kept as the list of its records, that answers a query with
    its first [n_results] records and the distances kept with them. *)
Definition list_store : Collaborators := {|
  Vector := unit;
  Store := list (str * metadata * Q);
  encode := λ texts, Ok (const () <$> texts);
  collection_add := λ st _ docs metas _,
    Ok (st ++ zip_with (λ d m, (d, m, 0%Q)) docs metas);
  collection_query := λ st _ n,
    let hits := take (Z.to_nat n) st in
    Ok (StoreReply [(λ r, r.1.1) <$> hits] [(λ r, r.1.2) <$> hits]
          [(λ r, r.2) <$> hits])
|}.

Definition two_records : list (str * metadata * Q) :=
  [(lit "alpha", Metadata (lit "d") (lit "f.pdf") 0 (lit "alpha"), 1 # 4);
   (lit "beta", Metadata (lit "d") (lit "f.pdf") 1 (lit "beta"), 3 # 2)]%Q.

(** ** Texts used as examples *)

(** A text of 2000 characters whose only period is at position 1700. *)
Definition boundary_text : str :=
  replicate 1700 97%N ++ [period] ++ replicate 299 97%N.

(** A text of 15 characters whose only period is at position 6. *)
Definition looping_text : str := lit "aaaaaa.aaaaaaaa".

(** A text of 900 characters without white space. *)
Definition long_short_text : str := replicate 900 97%N.

(** ** The endpoints *)

(** [s.endswith(suffix)] *)
Definition endswith (s suffix : str) : bool :=
  bool_decide (drop (length s - length suffix) s = suffix).

(** The content of a file. *)
Definition bytes := list N.

(** What the endpoints use besides the embedding model and the store:
    [str.lower()], whose case tables are those of Unicode, and the PDF
    converter, which reads the file at a path and answers its Markdown or
    raises.  The converter does not write to the file system. *)
Class Frontend := {
  lower : str → str;
  (** [self.converter.convert(pdf_path)], then
      [result.document.export_to_markdown()] *)
  convert : gmap str bytes → str → result str str
}.

(** The state of the server: the globals of the module and the files. *)
Record server `{Collaborators} := Server {
  rag : world;
  files : gmap str bytes
}.

(** How a request can fail: with an [HTTPException], or with an exception
    that no handler of the program catches. *)
Inductive failure : Type :=
  | Http (e : http_exception)
  | KeyError (key : str)
  | FileNotFoundError (path : str).

(** The answer of [upload_pdf]. *)
Record upload_response := UploadResponse {
  ur_message : str;
  ur_document_id : str;
  ur_filename : str;
  ur_chunk_count : nat
}.

(** An item of the answer of [list_documents]. *)
Record document_entry := DocumentEntry {
  de_doc_id : str;
  de_filename : str;
  de_chunk_count : nat
}.

(** [os.unlink(path)] *)
Definition unlink (path : str) (fs : gmap str bytes)
    : result failure (gmap str bytes) :=
  match fs !! path with
  | Some _ => Ok (delete path fs)
  | None => Err (FileNotFoundError path)
  end.

Section Endpoints.
Context `{Collaborators} `{Frontend}.

Definition convert_pdf_to_markdown (pdf_path : str) (s : server)
    : result http_exception str :=
  match convert (files s) pdf_path with
  | Ok markdown_content => Ok markdown_content
  | Err e => Err (HTTPException 500 (lit "Error converting PDF: " ++ e))
  end.

(** The [try] block of [upload_pdf]. *)
Definition upload_pdf_body (filename doc_id temp_file_path : str) (s : server)
    : result failure upload_response * server :=
  match convert_pdf_to_markdown temp_file_path s with
  | Err e => (Err (Http e), s)
  | Ok markdown_content =>
      match add_document_to_store doc_id filename markdown_content (rag s) with
      | (Err e, w) => (Err (Http e), Server _ w (files s))
      | (Ok _, w) =>
          match document_store w !! doc_id with
          | Some info =>
              (Ok (UploadResponse (lit "PDF processed successfully") doc_id
                     filename (di_chunk_count info)),
               Server _ w (files s))
          | None => (Err (KeyError doc_id), Server _ w (files s))
          end
      end
  end.

(** [upload_pdf(file)], for a file of name [filename] and content
    [content]; [doc_id] is the answer of [str(uuid.uuid4())] and
    [temp_file_path] the name that [NamedTemporaryFile] chose.  Reading
    the upload and writing the temporary file are taken to succeed.  The
    [finally] block runs whatever the [try] block did, and an exception
    of its own replaces the outcome of the block. *)
Definition upload_pdf (filename : str) (content : bytes)
    (doc_id temp_file_path : str) (s : server)
    : result failure upload_response * server :=
  if negb (endswith (lower filename) (lit ".pdf")) then
    (Err (Http (HTTPException 400 (lit "Only PDF files are allowed"))), s)
  else
    let s1 := Server _ (rag s) (<[temp_file_path := content]> (files s)) in
    let '(r, s2) := upload_pdf_body filename doc_id temp_file_path s1 in
    match unlink temp_file_path (files s2) with
    | Ok fs => (r, Server _ (rag s2) fs)
    | Err e => (Err e, s2)
    end.

(** The endpoint [query_documents(query)], which calls the method of the
    same name with its default [n_results=5]. *)
Definition query_documents_endpoint (query : str)
    : world → result http_exception query_response * world :=
  λ w,
    if bool_decide (strip query = []) then
      (Err (HTTPException 400 (lit "Query cannot be empty")), w)
    else query_documents query 5 w.

(** [list_documents()].  The items come in the order of the map, which
    is not the order of insertion that a Python [dict] keeps: what is
    proved of this list does not depend on its order. *)
Definition list_documents (w : world) : list document_entry :=
  (λ kv, DocumentEntry kv.1 (di_filename kv.2) (di_chunk_count kv.2))
    <$> map_to_list (document_store w).

End Endpoints.

(** ** More words of the properties *)

(** Each window starts [overlap] characters before the end of the one
    before it. *)
Fixpoint windows_overlap (overlap : Z) (ws : list (Z * Z)) : Prop :=
  match ws with
  | w1 :: ((w2 :: _) as ws') => w2.1 = w1.2 - overlap ∧ windows_overlap overlap ws'
  | _ => True
  end.

(** The least advance of the cursor in one turn of the loop, for an
    overlap that lets it advance. *)
Definition least_step (chunk_size overlap : Z) : Z :=
  Z.min (chunk_size - overlap) (chunk_size / 2 + 2 - overlap).

(** [lists[0][i]], when both indices are in range. *)
Definition reply_item {A} (lists : list (list A)) (i : nat) : option A :=
  match lists !! 0%nat with
  | Some l => l !! i
  | None => None
  end.

(** A reply of the store that lacks its list of texts, or holds fewer
    metadata or fewer distances than texts. *)
Definition reply_too_short (reply : store_reply) : Prop :=
  match documents reply !! 0%nat with
  | None => True
  | Some docs =>
      (length (default [] (metadatas reply !! 0%nat)) < length docs)%nat ∨
      (length (default [] (distances reply !! 0%nat)) < length docs)%nat
  end.

(** A text of white space only. *)
Definition blank (s : str) : Prop := Forall (λ c, is_space c = true) s.

(** A store whose reply holds a text and a distance, and no metadata. *)
Definition short_reply_store : Collaborators := {|
  Vector := unit;
  Store := unit;
  encode := λ texts, Ok (const () <$> texts);
  collection_add := λ st _ _ _ _, Ok st;
  collection_query := λ _ _ _, Ok (StoreReply [[lit "alpha"]] [[]] [[1 # 4]%Q])
|}.

(** A converter and a lower-casing for examples: ASCII letters are
    lowered, and a file converts to its content read as code points,
    or fails when it is missing or empty. *)
Definition ascii_lower (s : str) : str :=
  (λ c, if (65 <=? c) && (c <=? 90) then c + 32 else c)%N <$> s.

Definition plain_frontend : Frontend := {|
  lower := ascii_lower;
  convert := λ fs path,
    match fs !! path with
    | Some (c :: content) => Ok (c :: content)
    | Some [] => Err (lit "empty file")
    | None => Err (lit "no such file")
    end
|}.

(** A server with no document and no file, over [list_store]. *)
Definition empty_server : @server list_store :=
  @Server list_store (@World list_store [] ∅ []) ∅.

(** * Properties *)

(** ** Strings: [strip], slices and [rfind] *)

Section StringLemmas.

Lemma lstrip_suffix s : ∃ pre, s = pre ++ lstrip s.
Proof.
  induction s as [|c s [pre IH]]; simpl.
  - by exists [].
  - destruct (is_space c).
    + exists (c :: pre). simpl. by f_equal.
    + by exists [].
Qed.

Lemma lstrip_head s x : head (lstrip s) = Some x → is_space x = false.
Proof.
  induction s as [|c s IH]; simpl; [done|].
  destruct (is_space c) eqn:Hc; [done|].
  simpl. by intros [= <-].
Qed.

Lemma rstrip_prefix s : ∃ post, s = rstrip s ++ post.
Proof.
  unfold rstrip. destruct (lstrip_suffix (reverse s)) as [pre Hpre].
  exists (reverse pre).
  rewrite <- reverse_app, <- Hpre. by rewrite reverse_involutive.
Qed.

Lemma rstrip_last s x : last (rstrip s) = Some x → is_space x = false.
Proof.
  unfold rstrip. rewrite last_reverse. apply lstrip_head.
Qed.

Lemma rstrip_head s x : head (rstrip s) = Some x → head s = Some x.
Proof.
  destruct (rstrip_prefix s) as [post Hs].
  destruct (rstrip s) as [|y u] eqn:Hu; [done|].
  rewrite Hs. done.
Qed.

Lemma strip_substring s : substring (strip s) s.
Proof.
  unfold strip, substring.
  destruct (lstrip_suffix s) as [pre Hpre].
  destruct (rstrip_prefix (lstrip s)) as [post Hpost].
  exists pre, post. by rewrite <- Hpost.
Qed.

Lemma strip_trimmed s : trimmed (strip s).
Proof.
  split; intros x Hx.
  - apply (lstrip_head s). by apply rstrip_head.
  - by apply (rstrip_last (lstrip s)).
Qed.

Lemma substring_length c t : substring c t → (length c ≤ length t)%nat.
Proof. intros (pre & post & ->). rewrite !length_app. lia. Qed.

Lemma substring_trans a b c : substring a b → substring b c → substring a c.
Proof.
  intros (p1 & q1 & ->) (p2 & q2 & ->).
  exists (p2 ++ p1), (q1 ++ q2). by rewrite <- !app_assoc.
Qed.

Lemma strip_length s : (length (strip s) ≤ length s)%nat.
Proof. apply substring_length, strip_substring. Qed.

(** A text that is not white space only, without white space at either
    end, is left as it is. *)
Lemma lstrip_id s x : head s = Some x → is_space x = false → lstrip s = s.
Proof. destruct s as [|c s]; simpl; [done|]. by intros [= ->] ->. Qed.

Lemma slice_index_bounds n i : 0 <= n → 0 <= slice_index n i <= n.
Proof. unfold slice_index. destruct (Z.ltb_spec i 0); lia. Qed.

Lemma slice_substring {A} (s : list A) a b :
  ∃ pre post, s = pre ++ slice s a b ++ post.
Proof.
  unfold slice.
  exists (take (Z.to_nat (slice_index (len s) a)) s).
  exists (drop (Z.to_nat (slice_index (len s) b - slice_index (len s) a))
            (drop (Z.to_nat (slice_index (len s) a)) s)).
  by rewrite !take_drop.
Qed.

Lemma slice_len {A} (s : list A) a b :
  len (slice s a b) =
  Z.max 0 (slice_index (len s) b - slice_index (len s) a).
Proof.
  unfold slice, len.
  pose proof (slice_index_bounds (len s) a ltac:(unfold len; lia)).
  pose proof (slice_index_bounds (len s) b ltac:(unfold len; lia)).
  unfold len in *.
  rewrite length_take, length_drop. lia.
Qed.

(** A slice is no longer than its upper bound, and no longer than the
    distance between its bounds. *)
Lemma slice_len_le_hi {A} (s : list A) a b : 0 <= b → len (slice s a b) <= b.
Proof.
  intros Hb. rewrite slice_len.
  pose proof (slice_index_bounds (len s) a ltac:(unfold len; lia)).
  unfold slice_index in *.
  destruct (Z.ltb_spec b 0), (Z.ltb_spec a 0); lia.
Qed.

Lemma slice_len_le_width {A} (s : list A) a b :
  a <= b → len (slice s a b) <= b - a.
Proof.
  intros Hab. rewrite slice_len.
  unfold slice_index.
  destruct (Z.ltb_spec b 0), (Z.ltb_spec a 0); lia.
Qed.

(** Within the text, a slice from a cursor that is not negative reads
    the characters at the positions it names. *)
Lemma slice_lookup {A} (s : list A) a b p :
  0 <= a → a <= p < b → p < len s →
  slice s a b !! Z.to_nat (p - a) = s !! Z.to_nat p.
Proof.
  intros Ha Hp Hlen. unfold slice, slice_index, len in *.
  destruct (Z.ltb_spec a 0); [lia|].
  destruct (Z.ltb_spec b 0); [lia|].
  rewrite lookup_take_lt by lia.
  rewrite lookup_drop. f_equal. lia.
Qed.

(** A slice that takes in the whole text is the text. *)
Lemma slice_all {A} (s : list A) b : len s <= b → slice s 0 b = s.
Proof.
  intros Hb. unfold slice, slice_index, len in *. simpl.
  destruct (Z.ltb_spec b 0); [lia|].
  rewrite Z.min_r by lia.
  replace (Z.to_nat (0 `min` _)) with 0%nat by lia.
  replace (Z.to_nat _) with (length s) by lia.
  rewrite drop_0. apply firstn_all.
Qed.

Lemma rfind_bounds c s : -1 <= rfind c s < len s.
Proof.
  unfold len. induction s as [|x s IH]; simpl; [lia|].
  destruct (Z.leb_spec 0 (rfind c s)); [lia|].
  destruct (x =? c)%N; lia.
Qed.

(** [rfind] answers a position that holds the character, and nothing
    after it does. *)
Lemma rfind_found c s :
  0 <= rfind c s → s !! Z.to_nat (rfind c s) = Some c.
Proof.
  induction s as [|x s IH]; simpl; [lia|].
  destruct (Z.leb_spec 0 (rfind c s)) as [Hr|Hr].
  - intros _. replace (Z.to_nat (rfind c s + 1)) with (S (Z.to_nat (rfind c s))) by lia.
    simpl. auto.
  - destruct (N.eqb_spec x c) as [->|]; [done|lia].
Qed.

Lemma rfind_last c s i :
  rfind c s < Z.of_nat i → s !! i ≠ Some c.
Proof.
  revert i. induction s as [|x s IH]; intros i; simpl; [done|].
  destruct (Z.leb_spec 0 (rfind c s)) as [Hr|Hr].
  - intros Hi. destruct i as [|i]; [lia|]. simpl. apply IH. lia.
  - destruct (N.eqb_spec x c) as [->|Hne]; intros Hi.
    + destruct i as [|i]; [lia|]. simpl. apply IH. lia.
    + destruct i as [|i]; simpl; [congruence|]. apply IH. lia.
Qed.

End StringLemmas.

(** ** The loop of the chunker *)

Section ChunkLoop.

Variable text : str.
Variables chunk_size overlap : Z.

(** In both branches the chunk kept is the text between the cursor and
    the end chosen. *)
Lemma chunk_window_slice start :
  (chunk_window text chunk_size start).1 =
  slice text start (chunk_window text chunk_size start).2.
Proof.
  unfold chunk_window.
  destruct (_ <? len text); [|done].
  by destruct (_ >? _).
Qed.

(** The chunk kept is never longer than [chunk_size]. *)
Lemma chunk_window_len start :
  0 <= chunk_size →
  len (chunk_window text chunk_size start).1 <= chunk_size.
Proof.
  intros Hcs.
  assert (Hfull : len (slice text start (start + chunk_size)) <= chunk_size).
  { etrans; [apply slice_len_le_width|]; lia. }
  unfold chunk_window.
  destruct (_ <? len text); [|done].
  destruct (Z.gtb_spec
    (rfind period (slice text start (start + chunk_size))
       `max` rfind newline (slice text start (start + chunk_size)))
    (start + chunk_size / 2)); [|done].
  simpl.
  pose proof (rfind_bounds period (slice text start (start + chunk_size))).
  pose proof (rfind_bounds newline (slice text start (start + chunk_size))).
  etrans; [apply slice_len_le_hi|]; lia.
Qed.

(** The end chosen: the full window, or a cut after its midpoint. *)
Lemma chunk_window_end start :
  0 <= start → 0 <= chunk_size →
  let end_ := (chunk_window text chunk_size start).2 in
  end_ = start + chunk_size ∨
  start + chunk_size / 2 + 2 <= end_ <= start + chunk_size.
Proof.
  intros Hs Hcs. unfold chunk_window.
  destruct (_ <? len text); [|by left].
  destruct (Z.gtb_spec
    (rfind period (slice text start (start + chunk_size))
       `max` rfind newline (slice text start (start + chunk_size)))
    (start + chunk_size / 2)); [|by left].
  right. simpl.
  pose proof (rfind_bounds period (slice text start (start + chunk_size))).
  pose proof (rfind_bounds newline (slice text start (start + chunk_size))).
  assert (len (slice text start (start + chunk_size)) <= chunk_size).
  { etrans; [apply slice_len_le_width|]; lia. }
  lia.
Qed.

(** More turns do not change an answer. *)
Lemma chunk_loop_more_fuel fuel fuel' start chunks r :
  chunk_loop fuel text chunk_size overlap start chunks = Some r →
  (fuel ≤ fuel')%nat →
  chunk_loop fuel' text chunk_size overlap start chunks = Some r.
Proof.
  revert fuel' start chunks.
  induction fuel as [|fuel IH]; intros fuel' start chunks; simpl; [done|].
  intros Hr Hle. destruct fuel' as [|fuel']; [lia|]. simpl.
  destruct (start <? len text); [|done].
  destruct (chunk_window text chunk_size start) as [chunk end_].
  destruct (_ >=? len text); [done|].
  apply IH; [done|lia].
Qed.

(** The chunks gathered are the texts of the windows visited. *)
Lemma chunk_loop_trace fuel start chunks :
  chunk_loop fuel text chunk_size overlap start chunks =
  (λ ws, chunks ++ (window_chunk text <$> ws)) <$>
    chunk_trace fuel text chunk_size overlap start.
Proof.
  revert start chunks.
  induction fuel as [|fuel IH]; intros start chunks; simpl; [done|].
  destruct (start <? len text); simpl; [|by rewrite app_nil_r].
  pose proof (chunk_window_slice start) as Hsl.
  destruct (chunk_window text chunk_size start) as [chunk end_].
  simpl in *. subst chunk.
  destruct (_ >=? len text); simpl; [done|].
  rewrite IH. destruct (chunk_trace _ _ _ _ _); simpl; [|done].
  by rewrite <- app_assoc.
Qed.

Lemma chunk_text_fuel_trace fuel :
  chunk_text_fuel fuel text chunk_size overlap =
  (λ ws, nonempty_chunks (window_chunk text <$> ws)) <$>
    chunk_trace fuel text chunk_size overlap 0.
Proof.
  unfold chunk_text_fuel. rewrite chunk_loop_trace.
  by destruct (chunk_trace _ _ _ _ _).
Qed.

(** [chunk_text] has at most one answer. *)
Lemma chunk_text_returns_functional r1 r2 :
  chunk_text_returns text chunk_size overlap r1 →
  chunk_text_returns text chunk_size overlap r2 →
  r1 = r2.
Proof.
  unfold chunk_text_returns, chunk_text_fuel.
  intros [f1 H1] [f2 H2].
  destruct (chunk_loop f1 _ _ _ _ _) as [c1|] eqn:E1; [|done].
  destruct (chunk_loop f2 _ _ _ _ _) as [c2|] eqn:E2; [|done].
  apply (chunk_loop_more_fuel _ (f1 `max` f2)%nat) in E1; [|lia].
  apply (chunk_loop_more_fuel _ (f1 `max` f2)%nat) in E2; [|lia].
  simpl in *. congruence.
Qed.

(** *** Parameters under which the cursor always moves forward *)

Hypothesis overlap_nonneg : 0 <= overlap.
Hypothesis overlap_below_size : overlap < chunk_size.
Hypothesis overlap_below_cut : overlap <= chunk_size / 2 + 1.

Lemma chunk_cursor_advances start :
  0 <= start →
  let end_ := (chunk_window text chunk_size start).2 in
  start < end_ - overlap ∧ start < end_.
Proof.
  intros Hs. assert (Hcs : 0 <= chunk_size) by lia.
  pose proof (chunk_window_end start Hs Hcs) as Hend. cbv zeta in *.
  revert Hend. generalize (chunk_window text chunk_size start).2.
  intros end_ Hend. Z.div_mod_to_equations. lia.
Qed.

(** The loop ends within [len(text) - start + 1] turns. *)
Lemma chunk_trace_ends fuel start :
  0 <= start → len text - start <= Z.of_nat fuel →
  is_Some (chunk_trace (S fuel) text chunk_size overlap start).
Proof.
  revert start. induction fuel as [|fuel IH]; intros start Hs Hf.
  - simpl. destruct (Z.ltb_spec start (len text)); [lia|done].
  - change (chunk_trace (S (S fuel)) text chunk_size overlap start) with
      (if start <? len text then
         let end_ := (chunk_window text chunk_size start).2 in
         let start' := end_ - overlap in
         if start' >=? len text then Some [(start, end_)]
         else cons (start, end_) <$>
                chunk_trace (S fuel) text chunk_size overlap start'
       else Some []).
    destruct (Z.ltb_spec start (len text)); [|done].
    destruct (chunk_cursor_advances start Hs) as [Hadv _]. cbv zeta in *.
    destruct (_ >=? len text); [done|].
    destruct (IH ((chunk_window text chunk_size start).2 - overlap)) as [ws ->];
      [lia|lia|done].
Qed.

(** What the windows of a run that ends look like. *)
Lemma chunk_trace_windows fuel start ws :
  0 <= start →
  chunk_trace fuel text chunk_size overlap start = Some ws →
  Forall (λ w, 0 <= w.1 < w.2) ws ∧
  windows_chained ws ∧
  (∀ w, head ws = Some w → w.1 = start) ∧
  (∀ p, start <= p < len text → Exists (in_window p) ws).
Proof.
  revert start ws. induction fuel as [|fuel IH]; intros start ws Hs; simpl; [done|].
  destruct (Z.ltb_spec start (len text)) as [Hlt|Hge].
  2:{ intros [= <-]. repeat split; [constructor|done|intros; lia]. }
  destruct (chunk_cursor_advances start Hs) as [Hadv Hend]. simpl in *.
  set (end_ := (chunk_window text chunk_size start).2) in *.
  destruct (Z.geb_spec (end_ - overlap) (len text)) as [Hbrk|Hgo].
  - intros [= <-]. repeat split.
    + repeat constructor; simpl; lia.
    + by intros w [= <-].
    + intros p Hp. apply Exists_cons_hd. unfold in_window. simpl. lia.
  - destruct (chunk_trace fuel _ _ _ _) as [rest|] eqn:Hrest; [|done].
    simpl. intros [= <-].
    destruct (IH (end_ - overlap) rest ltac:(lia) Hrest) as (Hpos & Hch & Hhd & Hcov).
    repeat split.
    + constructor; [simpl; lia|done].
    + destruct rest as [|w2 rest]; [done|].
      split; [|done]. rewrite (Hhd w2 eq_refl). simpl. lia.
    + by intros w [= <-].
    + intros p Hp. destruct (Z.lt_ge_cases p end_).
      * apply Exists_cons_hd. unfold in_window. simpl. lia.
      * apply Exists_cons_tl, Hcov. lia.
Qed.

End ChunkLoop.

(** ** The chunker: what it returns *)

Lemma chunk_loop_step fuel text chunk_size overlap start chunks :
  chunk_loop (S fuel) text chunk_size overlap start chunks =
  if start <? len text then
    let '(chunk, end_) := chunk_window text chunk_size start in
    if end_ - overlap >=? len text then Some (chunks ++ [strip chunk])
    else chunk_loop fuel text chunk_size overlap (end_ - overlap)
           (chunks ++ [strip chunk])
  else Some chunks.
Proof.
  simpl. destruct (start <? len text); [|done].
  by destruct (chunk_window text chunk_size start).
Qed.

(** The scenario of the specification: four chunks. *)
Example chunk_three_sentences :
  chunk_text_fuel 10 (lit "Sentence one. Sentence two. Sentence three.") 20 5
  = Some [lit "Sentence one."; lit "one. Sentence two."; lit "two. Sentence three.";
          lit "hree."].
Proof. vm_compute. reflexivity. Qed.

(** With an overlap that leaves the cursor moving forward, [len(text) + 1]
    turns are enough, and the windows visited cover the text. *)
Lemma chunk_text_windows text chunk_size overlap :
  0 <= overlap < chunk_size → overlap <= chunk_size / 2 + 1 →
  ∃ ws,
    chunk_text_fuel (S (length text)) text chunk_size overlap
      = Some (nonempty_chunks (window_chunk text <$> ws)) ∧
    Forall (λ w, 0 <= w.1 < w.2) ws ∧
    windows_chained ws ∧
    ∀ p, 0 <= p < len text → Exists (in_window p) ws.
Proof.
  intros [Hov Hlt] Hcut.
  destruct (chunk_trace_ends text chunk_size overlap Hov Hlt Hcut (length text) 0)
    as [ws Hws]; [lia|unfold len; lia|].
  exists ws. rewrite chunk_text_fuel_trace, Hws. split; [done|].
  destruct (chunk_trace_windows text chunk_size overlap Hov Hlt Hcut
              (S (length text)) 0 ws) as (Hpos & Hch & _ & Hcov); [lia|done|].
  done.
Qed.

Lemma chunk_text_default_returns text :
  chunk_text_returns text 1000 200 (chunk_text_default text).
Proof.
  destruct (chunk_text_windows text 1000 200) as (ws & Hws & _); [lia|done|].
  exists (S (length text)). unfold chunk_text_default. by rewrite Hws.
Qed.

(** A property of every chunk the loop appends holds of all it returns. *)
Lemma chunk_loop_Forall (P : str → Prop) fuel text chunk_size overlap start chunks r :
  (∀ s, P (strip (chunk_window text chunk_size s).1)) →
  Forall P chunks →
  chunk_loop fuel text chunk_size overlap start chunks = Some r →
  Forall P r.
Proof.
  intros HP. revert start chunks.
  induction fuel as [|fuel IH]; intros start chunks Hacc; [done|].
  rewrite chunk_loop_step.
  destruct (start <? len text); [|by intros [= <-]].
  pose proof (HP start) as Hnew.
  destruct (chunk_window text chunk_size start) as [chunk end_]. simpl in Hnew.
  assert (Forall P (chunks ++ [strip chunk])) by (apply Forall_app; auto).
  destruct (_ >=? len text); [by intros [= <-]|].
  by apply IH.
Qed.

(** C10: every chunk in the list that [chunk_text(t, chunk_size, overlap)]
    returns, for a chunk size that is not negative, is non-empty, has no
    white space at either end, is a run of consecutive characters of [t],
    and is at most [chunk_size] characters long. *)
Theorem chunk_text_chunks_wellformed text chunk_size overlap r :
  0 <= chunk_size →
  chunk_text_returns text chunk_size overlap r →
  Forall (λ chunk, chunk ≠ [] ∧ trimmed chunk ∧ substring chunk text ∧
                   len chunk <= chunk_size) r.
Proof.
  intros Hcs [fuel Hr]. unfold chunk_text_fuel in Hr.
  destruct (chunk_loop _ _ _ _ _ _) as [chunks|] eqn:Hloop; [|done].
  injection Hr as <-.
  apply (chunk_loop_Forall
    (λ chunk, trimmed chunk ∧ substring chunk text ∧ len chunk <= chunk_size))
    in Hloop; [| |constructor].
  - unfold nonempty_chunks. apply Forall_forall. intros c Hc.
    apply list_elem_of_filter in Hc as [Hne Hc].
    rewrite Forall_forall in Hloop. specialize (Hloop c Hc). tauto.
  - intros s. split; [apply strip_trimmed|]. split.
    + eapply substring_trans; [apply strip_substring|].
      rewrite chunk_window_slice. apply slice_substring.
    + pose proof (strip_length (chunk_window text chunk_size s).1).
      pose proof (chunk_window_len text chunk_size s Hcs).
      unfold len in *. lia.
Qed.

Lemma chunk_text_chunks_wellformed_witness :
  Forall (λ chunk, chunk ≠ [] ∧ trimmed chunk ∧
                   substring chunk (lit "Sentence one. Sentence two. Sentence three.") ∧
                   len chunk <= 20)
    [lit "Sentence one."; lit "one. Sentence two."; lit "two. Sentence three.";
     lit "hree."].
Proof.
  apply (chunk_text_chunks_wellformed _ 20 5); [lia|].
  exists 10%nat. vm_compute. reflexivity.
Defined.

(** C3, as the code has it: for every text and every pair of parameters
    with [0 <= overlap < chunk_size] and [overlap <= chunk_size // 2 + 1],
    [chunk_text] returns. *)
Theorem chunk_text_terminates_small_overlap text chunk_size overlap :
  0 <= overlap < chunk_size → overlap <= chunk_size / 2 + 1 →
  chunk_text_terminates text chunk_size overlap.
Proof.
  intros Hov Hcut.
  destruct (chunk_text_windows text chunk_size overlap Hov Hcut) as (ws & Hws & _).
  eexists. exists (S (length text)). exact Hws.
Qed.

Lemma chunk_text_terminates_small_overlap_witness :
  chunk_text_terminates (lit "Sentence one. Sentence two. Sentence three.") 20 5.
Proof.
  apply chunk_text_terminates_small_overlap; [lia|].
  vm_compute. discriminate.
Defined.

(** C3, as stated, fails: with [chunk_size=10] and [overlap=7] the cut
    after the period at position 6 sends the cursor back to [0], and the
    loop never ends. *)
Lemma chunk_text_loops_forever :
  0 <= 7 < 10 ∧ ¬ chunk_text_terminates looping_text 10 7.
Proof.
  split; [lia|].
  assert (Hw : chunk_window looping_text 10 0 = (lit "aaaaaa.", 7))
    by (vm_compute; reflexivity).
  assert (Hloop : ∀ fuel chunks, chunk_loop fuel looping_text 10 7 0 chunks = None).
  { induction fuel as [|fuel IH]; intros chunks; [done|].
    rewrite chunk_loop_step, Hw.
    change (0 <? len looping_text) with true. cbv iota beta.
    change (7 - 7 >=? len looping_text) with false. cbv iota.
    apply IH. }
  intros (r & fuel & Hr). unfold chunk_text_fuel in Hr.
  by rewrite Hloop in Hr.
Qed.

(** C2, as the code has it: for every text [t] that is not white space
    only, with [len(t) < chunk_size] and [len(t) <= chunk_size - overlap],
    [chunk_text] returns exactly one chunk, [t.strip()]. *)
Theorem chunk_text_short_text text chunk_size overlap :
  strip text ≠ [] →
  len text < chunk_size → len text <= chunk_size - overlap →
  chunk_text_returns text chunk_size overlap [strip text] ∧
  ∀ r, chunk_text_returns text chunk_size overlap r → r = [strip text].
Proof.
  intros Hne Hlt Hov.
  assert (Hret : chunk_text_returns text chunk_size overlap [strip text]).
  { exists 1%nat. unfold chunk_text_fuel. rewrite chunk_loop_step.
    assert (Hpos : 0 < len text).
    { destruct text; [done|]. unfold len. simpl. lia. }
    destruct (Z.ltb_spec 0 (len text)); [|lia].
    unfold chunk_window. rewrite !Z.add_0_l.
    destruct (Z.ltb_spec chunk_size (len text)); [lia|].
    rewrite slice_all by lia.
    destruct (Z.geb_spec (chunk_size - overlap) (len text)); [|lia].
    simpl. unfold nonempty_chunks.
    by rewrite filter_cons_True, filter_nil. }
  split; [done|]. intros r Hr.
  by apply (chunk_text_returns_functional text chunk_size overlap).
Qed.

Lemma chunk_text_short_text_witness :
  chunk_text_returns (lit "  Hello. ") 1000 200 [lit "Hello."] ∧
  ∀ r, chunk_text_returns (lit "  Hello. ") 1000 200 r → r = [lit "Hello."].
Proof.
  apply (chunk_text_short_text (lit "  Hello. ") 1000 200).
  - vm_compute. discriminate.
  - reflexivity.
  - vm_compute. discriminate.
Defined.

(** C2, as stated, fails under the default parameters: a text of white
    space only gives no chunk, and a text of 900 characters gives two,
    the second being its last 100 characters. *)
Lemma chunk_text_short_text_counterexample :
  (lit " " ≠ [] ∧ len (lit " ") < 1000 ∧
   chunk_text_returns (lit " ") 1000 200 [] ∧
   ¬ chunk_text_returns (lit " ") 1000 200 [strip (lit " ")]) ∧
  (long_short_text ≠ [] ∧ len long_short_text < 1000 ∧
   chunk_text_returns long_short_text 1000 200
     [long_short_text; replicate 100 97%N] ∧
   ¬ chunk_text_returns long_short_text 1000 200 [strip long_short_text]).
Proof.
  assert (H1 : chunk_text_returns (lit " ") 1000 200 []).
  { exists 2%nat. vm_compute. reflexivity. }
  assert (H2 : chunk_text_returns long_short_text 1000 200
                 [long_short_text; replicate 100 97%N]).
  { exists 3%nat. vm_compute. reflexivity. }
  repeat split; try done.
  - intros H. by pose proof (chunk_text_returns_functional _ _ _ _ _ H1 H).
  - intros H. by pose proof (chunk_text_returns_functional _ _ _ _ _ H2 H).
Qed.

(** C4: under the default parameters [chunk_text] returns the trimmed,
    non-empty texts of a chain of windows in which each window starts at
    or before the end of the one before it, and every character of the
    text lies in one of them. *)
Theorem chunk_text_covers_text text :
  ∃ ws,
    chunk_text_returns text 1000 200
      (nonempty_chunks (window_chunk text <$> ws)) ∧
    windows_chained ws ∧
    ∀ p, 0 <= p < len text →
      Exists (λ w, in_window p w ∧
                   slice text w.1 w.2 !! Z.to_nat (p - w.1)
                     = text !! Z.to_nat p) ws.
Proof.
  destruct (chunk_text_windows text 1000 200) as (ws & Hws & Hpos & Hch & Hcov);
    [lia|done|].
  exists ws. split; [by exists (S (length text))|]. split; [done|].
  intros p Hp. specialize (Hcov p Hp).
  apply Exists_exists in Hcov as (w & Hw & Hin).
  apply Exists_exists. exists w. split; [done|]. split; [done|].
  rewrite Forall_forall in Hpos. specialize (Hpos w Hw).
  unfold in_window in Hin. apply slice_lookup; lia.
Qed.

(** From a cursor at or past half a window, the test of the source never
    passes: the place of the last period or newline is counted from the
    start of the window, and compared with a place counted from the start
    of the text. *)
Lemma chunk_window_never_cuts text chunk_size start :
  0 <= chunk_size → chunk_size - chunk_size / 2 - 1 <= start →
  chunk_window text chunk_size start =
  (slice text start (start + chunk_size), start + chunk_size).
Proof.
  intros Hcs Hs. unfold chunk_window.
  destruct (_ <? len text); [|done].
  pose proof (rfind_bounds period (slice text start (start + chunk_size))).
  pose proof (rfind_bounds newline (slice text start (start + chunk_size))).
  assert (len (slice text start (start + chunk_size)) <= chunk_size).
  { etrans; [apply slice_len_le_width|]; lia. }
  destruct (Z.gtb_spec
    (rfind period (slice text start (start + chunk_size))
       `max` rfind newline (slice text start (start + chunk_size)))
    (start + chunk_size / 2)); [lia|done].
Qed.

(** At the first turn the cursor is [0], offsets in the window are
    places in the text, and the code does what the specification says. *)
Lemma chunk_window_first_turn text chunk_size :
  0 <= chunk_size →
  chunk_window text chunk_size 0 = chunk_window_spec text chunk_size 0.
Proof.
  intros Hcs. unfold chunk_window, chunk_window_spec. rewrite !Z.add_0_l.
  destruct (_ <? len text); [|done].
  destruct (Z.gtb_spec
    (rfind period (slice text 0 chunk_size)
       `max` rfind newline (slice text 0 chunk_size)) (chunk_size / 2)) as [Hgt|Hle].
  - destruct (Z.leb_spec 0
      (rfind period (slice text 0 chunk_size)
         `max` rfind newline (slice text 0 chunk_size))) as [|Hneg]; [done|].
    exfalso. revert Hgt Hneg. generalize (rfind period (slice text 0 chunk_size)
      `max` rfind newline (slice text 0 chunk_size)). intros offset.
    pose proof (Z.div_pos chunk_size 2 Hcs ltac:(lia)). lia.
  - by rewrite andb_false_r.
Qed.

(** C1, on the code: on [boundary_text] under the default parameters the
    second turn starts at 800; the last period of its window
    [t[800:1800]] is at position 1700 of the text, after the midpoint
    1300, and the specification cuts the chunk to [t[800:1701]] and moves
    the cursor to 1501; the code keeps the whole window, of 1000
    characters, and moves the cursor to 1600. *)
Theorem chunk_text_ignores_late_break_point :
  chunk_trace 3 boundary_text 1000 200 0
    = Some [(0, 1000); (800, 1800); (1600, 2600)] ∧
  800 + 1000 < len boundary_text ∧
  800 + Z.max (rfind period (slice boundary_text 800 1800))
              (rfind newline (slice boundary_text 800 1800)) = 1700 ∧
  800 + 1000 / 2 < 1700 ∧
  chunk_window_spec boundary_text 1000 800
    = (slice boundary_text 800 (1700 + 1), 1700 + 1) ∧
  chunk_window boundary_text 1000 800 = (slice boundary_text 800 1800, 1800) ∧
  len (strip (chunk_window_spec boundary_text 1000 800).1) = 901 ∧
  len (strip (chunk_window boundary_text 1000 800).1) = 1000 ∧
  (chunk_window_spec boundary_text 1000 800).2 - 200 = 1501 ∧
  (chunk_window boundary_text 1000 800).2 - 200 = 1600.
Proof.
  repeat split; vm_compute; reflexivity.
Qed.

(** ** Chunk identifiers *)

Section ChunkIds.

Lemma digits_are_digits d : Forall (λ c, is_digit c = true) (digits d).
Proof. induction d; simpl; constructor; done. Qed.

Lemma digits_inj d1 d2 : digits d1 = digits d2 → d1 = d2.
Proof.
  revert d2. induction d1; destruct d2; simpl; intros [=]; f_equal; auto.
Qed.

Lemma str_of_nat_inj i j : str_of_nat i = str_of_nat j → i = j.
Proof.
  unfold str_of_nat. intros Hd%digits_inj.
  rewrite <- (DecimalNat.Unsigned.of_to i), <- (DecimalNat.Unsigned.of_to j).
  by rewrite Hd.
Qed.

(** Two texts cut at a character that neither tail holds are cut at the
    same place. *)
Lemma split_at_last {A} (x : A) a1 a2 n1 n2 :
  x ∉ n1 → x ∉ n2 → a1 ++ x :: n1 = a2 ++ x :: n2 → a1 = a2 ∧ n1 = n2.
Proof.
  intros H1 H2. revert a2.
  induction a1 as [|y a1 IH]; intros [|z a2]; simpl; intros Heq.
  - by injection Heq as ->.
  - injection Heq as Hhd Htl. exfalso. apply H1.
    rewrite Htl. apply elem_of_app. right. constructor.
  - injection Heq as Hhd Htl. exfalso. apply H2.
    rewrite <- Htl. apply elem_of_app. right. constructor.
  - injection Heq as Hhd Htl. pose proof (IH a2 Htl) as [Ha Hn]. by subst.
Qed.

Lemma underscore_not_in_digits d : 95%N ∉ digits d.
Proof.
  intros Hin. pose proof (digits_are_digits d) as Hall.
  rewrite Forall_forall in Hall. by specialize (Hall _ Hin).
Qed.

Lemma chunk_id_inj doc1 i1 doc2 i2 :
  chunk_id doc1 i1 = chunk_id doc2 i2 → doc1 = doc2 ∧ i1 = i2.
Proof.
  unfold chunk_id.
  change (lit "_chunk_") with (lit "_chunk" ++ [95%N]).
  rewrite <- !app_assoc. simpl ([95%N] ++ _). rewrite !app_assoc.
  intros Heq. apply split_at_last in Heq as [Hdoc Hnum];
    [|apply underscore_not_in_digits..].
  apply app_inv_tail in Hdoc. apply str_of_nat_inj in Hnum. done.
Qed.

(** C5: the map from a document identifier and a chunk index to the
    chunk identifier is injective, whatever the document identifiers
    are. *)
Theorem chunk_id_injective doc1 i1 doc2 i2 :
  chunk_id doc1 i1 = chunk_id doc2 i2 → doc1 = doc2 ∧ i1 = i2.
Proof. apply chunk_id_inj. Qed.

Lemma chunk_id_injective_witness :
  lit "a_chunk_1" = lit "a_chunk_1" ∧ 2%nat = 2%nat.
Proof.
  apply (chunk_id_injective (lit "a_chunk_1") 2 (lit "a_chunk_1") 2).
  reflexivity.
Defined.

Lemma elem_of_chunk_ids_of x doc_id chunks :
  x ∈ chunk_ids_of doc_id chunks ↔
  ∃ i, (i < length chunks)%nat ∧ x = chunk_id doc_id i.
Proof.
  unfold chunk_ids_of. rewrite list_elem_of_fmap. split.
  - intros (i & -> & Hi). apply elem_of_seq in Hi. exists i. split; [lia|done].
  - intros (i & Hi & ->). exists i. split; [done|]. apply elem_of_seq. lia.
Qed.

(** Two documents with distinct identifiers share no chunk identifier. *)
Lemma chunk_ids_disjoint doc1 doc2 chunks1 chunks2 x :
  doc1 ≠ doc2 →
  x ∈ chunk_ids_of doc1 chunks1 → x ∉ chunk_ids_of doc2 chunks2.
Proof.
  intros Hne (i1 & _ & ->)%elem_of_chunk_ids_of (i2 & _ & Heq)%elem_of_chunk_ids_of.
  by apply chunk_id_inj in Heq as [? _].
Qed.

(** Within a document, no chunk identifier comes twice. *)
Lemma chunk_ids_NoDup doc_id chunks : NoDup (chunk_ids_of doc_id chunks).
Proof.
  unfold chunk_ids_of. apply NoDup_fmap_2; [|apply NoDup_seq].
  intros i j Heq. by apply chunk_id_inj in Heq as [_ ?].
Qed.

End ChunkIds.

(** ** Ingestion *)

Section Ingestion.
Context `{Collaborators}.

Variables doc_id filename markdown_content : str.
Variable w : world.

(** The chunks of the document. *)
Variable chunks : list str.
Hypothesis chunks_of_text : chunk_text_default markdown_content = chunks.

(** The three ways [add_document_to_store] can go. *)
Lemma add_document_encode_fails e :
  encode chunks = Err e →
  add_document_to_store doc_id filename markdown_content w =
  (Err (HTTPException 500 (lit "Error adding document to store: " ++ e)),
   logged (CallEncode chunks) w).
Proof.
  intros Henc. unfold add_document_to_store, try_except, mbind, M_bind, call_encode.
  rewrite chunks_of_text. by rewrite Henc.
Qed.

Lemma add_document_add_fails embeddings e :
  encode chunks = Ok embeddings →
  collection_add (collection w) embeddings chunks
    (metadatas_of doc_id filename chunks) (chunk_ids_of doc_id chunks) = Err e →
  add_document_to_store doc_id filename markdown_content w =
  (Err (HTTPException 500 (lit "Error adding document to store: " ++ e)),
   logged (CallAdd embeddings chunks (metadatas_of doc_id filename chunks)
             (chunk_ids_of doc_id chunks))
     (logged (CallEncode chunks) w)).
Proof.
  intros Henc Hadd.
  unfold add_document_to_store, try_except, mbind, M_bind, call_encode, call_add.
  rewrite chunks_of_text, Henc. simpl. by rewrite Hadd.
Qed.

Lemma add_document_succeeds embeddings st :
  encode chunks = Ok embeddings →
  collection_add (collection w) embeddings chunks
    (metadatas_of doc_id filename chunks) (chunk_ids_of doc_id chunks) = Ok st →
  add_document_to_store doc_id filename markdown_content w =
  (Ok (),
   World _ st
     (<[doc_id := DocInfo filename markdown_content (length chunks) doc_id]>
        (document_store w))
     (calls w ++ [CallEncode chunks] ++
        [CallAdd embeddings chunks (metadatas_of doc_id filename chunks)
           (chunk_ids_of doc_id chunks)])).
Proof.
  intros Henc Hadd.
  unfold add_document_to_store, try_except, mbind, M_bind, call_encode, call_add,
    set_document.
  rewrite chunks_of_text, Henc. simpl. rewrite Hadd. simpl.
  by rewrite <- app_assoc.
Qed.

(** C6: when [encode] or [collection.add] raises, [add_document_to_store]
    raises an [HTTPException] whose detail carries the message of the
    cause, [document_store] and the collection are as they were, and
    each collaborator was called at most once. *)
Theorem ingestion_failure_keeps_registry e :
  (encode chunks = Err e ∨
   ∃ embeddings,
     encode chunks = Ok embeddings ∧
     collection_add (collection w) embeddings chunks
       (metadatas_of doc_id filename chunks) (chunk_ids_of doc_id chunks)
       = Err e) →
  ∃ w',
    add_document_to_store doc_id filename markdown_content w =
      (Err (HTTPException 500 (lit "Error adding document to store: " ++ e)), w') ∧
    document_store w' = document_store w ∧
    collection w' = collection w ∧
    (calls w' = calls w ++ [CallEncode chunks] ∨
     ∃ embeddings metas ids,
       calls w' = calls w ++ [CallEncode chunks; CallAdd embeddings chunks metas ids]).
Proof.
  intros [Henc|(embeddings & Henc & Hadd)].
  - rewrite (add_document_encode_fails e Henc). eexists. split; [done|].
    simpl. auto.
  - rewrite (add_document_add_fails embeddings e Henc Hadd). eexists.
    split; [done|]. simpl. repeat split. right.
    eexists _, _, _. by rewrite <- app_assoc.
Qed.

(** C9: the metadata passed to [collection.add] pair the [i]-th chunk
    with the document identifier, the file name, the index [i], and the
    chunk itself when it has at most 200 characters, its first 200
    characters followed by ["..."] otherwise. *)
Theorem ingestion_metadata embeddings :
  encode chunks = Ok embeddings →
  ∃ metas,
    calls (add_document_to_store doc_id filename markdown_content w).2 =
      calls w ++ [CallEncode chunks;
                  CallAdd embeddings chunks metas (chunk_ids_of doc_id chunks)] ∧
    length metas = length chunks ∧
    ∀ i (chunk : str), chunks !! i = Some chunk →
      ∃ m, metas !! i = Some m ∧
        md_document_id m = doc_id ∧ md_filename m = filename ∧
        md_chunk_index m = i ∧
        ((length chunk ≤ 200)%nat → md_chunk_text m = chunk) ∧
        ((200 < length chunk)%nat →
           md_chunk_text m = take 200 chunk ++ lit "...").
Proof.
  intros Henc. exists (metadatas_of doc_id filename chunks). split; [|split].
  - destruct (collection_add (collection w) embeddings chunks
      (metadatas_of doc_id filename chunks) (chunk_ids_of doc_id chunks))
      as [st|e] eqn:Hadd.
    + by rewrite (add_document_succeeds embeddings st Henc Hadd).
    + rewrite (add_document_add_fails embeddings e Henc Hadd). simpl.
      by rewrite <- app_assoc.
  - apply length_imap.
  - intros i chunk Hi. unfold metadatas_of.
    rewrite list_lookup_imap, Hi. simpl.
    eexists. split; [done|]. simpl. repeat split.
    + intros Hle. unfold preview, len.
      destruct (Z.gtb_spec (Z.of_nat (length chunk)) 200); [lia|done].
    + intros Hgt. unfold preview, len, slice_to, slice_index.
      destruct (Z.gtb_spec (Z.of_nat (length chunk)) 200); [|lia].
      simpl. do 2 f_equal. unfold len. lia.
Qed.

End Ingestion.

Lemma ingestion_failure_keeps_registry_witness :
  let w := @World failing_embedder () ∅ [] in
  let chunks := [lit "Hello. World."] in
  ∃ w',
    @add_document_to_store failing_embedder (lit "doc") (lit "f.pdf")
      (lit "Hello. World.") w =
      (Err (HTTPException 500
              (lit "Error adding document to store: " ++ lit "model not loaded")),
       w') ∧
    document_store w' = document_store w ∧
    collection w' = collection w ∧
    (calls w' = calls w ++ [CallEncode chunks] ∨
     ∃ embeddings metas ids,
       calls w' = calls w ++ [CallEncode chunks; CallAdd embeddings chunks metas ids]).
Proof.
  intros w chunks.
  apply (@ingestion_failure_keeps_registry failing_embedder).
  - vm_compute. reflexivity.
  - left. reflexivity.
Defined.

Lemma ingestion_metadata_witness :
  let w := @World list_store [] ∅ [] in
  let chunks := [lit "Hello. World."] in
  ∃ metas,
    calls (@add_document_to_store list_store (lit "doc") (lit "f.pdf")
             (lit "Hello. World.") w).2 =
      calls w ++ [CallEncode chunks;
                  @CallAdd list_store [()] chunks metas
                    (chunk_ids_of (lit "doc") chunks)] ∧
    length metas = length chunks ∧
    ∀ i (chunk : str), chunks !! i = Some chunk →
      ∃ m, metas !! i = Some m ∧
        md_document_id m = lit "doc" ∧ md_filename m = lit "f.pdf" ∧
        md_chunk_index m = i ∧
        ((length chunk ≤ 200)%nat → md_chunk_text m = chunk) ∧
        ((200 < length chunk)%nat →
           md_chunk_text m = take 200 chunk ++ lit "...").
Proof.
  intros w chunks.
  apply (@ingestion_metadata list_store).
  - vm_compute. reflexivity.
  - reflexivity.
Defined.

(** ** Retrieval *)

Section PairedResults.

Lemma paired_results_lookup docs metas dists i (d : str) m (x : Q) :
  docs !! i = Some d → metas !! i = Some m → dists !! i = Some x →
  paired_results docs metas dists !! i = Some (QueryResult d m (1 - x)%Q).
Proof.
  intros Hd Hm Hx. unfold paired_results.
  rewrite lookup_zip_with, lookup_zip_with, Hd, Hm. simpl. by rewrite Hx.
Qed.

Lemma paired_results_length docs metas dists :
  length metas = length docs → length dists = length docs →
  length (paired_results docs metas dists) = length docs.
Proof.
  intros Hm Hx. unfold paired_results.
  rewrite length_zip_with, length_zip_with. lia.
Qed.

Lemma paired_results_fields docs metas dists :
  length metas = length docs → length dists = length docs →
  content <$> paired_results docs metas dists = docs ∧
  qr_metadata <$> paired_results docs metas dists = metas ∧
  similarity_score <$> paired_results docs metas dists
    = (λ d, 1 - d)%Q <$> dists.
Proof.
  revert metas dists.
  induction docs as [|d docs IH]; intros [|m metas] [|x dists]; simpl;
    try done.
  intros [= Hm] [= Hx]. destruct (IH metas dists Hm Hx) as (H1 & H2 & H3).
  unfold paired_results in *. simpl. repeat split; f_equal; assumption.
Qed.

Lemma scores_non_increasing dists :
  ascending dists → non_increasing ((λ d, 1 - d)%Q <$> dists).
Proof.
  intros Hasc i j a b Hij.
  rewrite !list_lookup_fmap.
  destruct (dists !! i) as [x|] eqn:Hi; [|done].
  destruct (dists !! j) as [y|] eqn:Hj; [|done].
  simpl. intros [= <-] [= <-].
  pose proof (Hasc i j x y Hij Hi Hj). lra.
Qed.

Lemma scores_in_range dists :
  Forall (λ d, 0 <= d <= 2)%Q dists →
  Forall (λ s, -1 <= s <= 1)%Q ((λ d, 1 - d)%Q <$> dists).
Proof.
  intros Hall. apply Forall_fmap. eapply Forall_impl; [exact Hall|].
  intros d Hd. simpl in *. lra.
Qed.

End PairedResults.

Section Retrieval.
Context `{Collaborators}.

Variable reply : store_reply.
Variables (docs : list str) (metas : list metadata) (dists : list Q).
Hypothesis reply_docs : documents reply !! 0%nat = Some docs.
Hypothesis reply_metas : metadatas reply !! 0%nat = Some metas.
Hypothesis reply_dists : distances reply !! 0%nat = Some dists.
Hypothesis metas_length : length metas = length docs.
Hypothesis dists_length : length dists = length docs.

Lemma format_result_ok i w :
  (i < length docs)%nat →
  ∃ r, paired_results docs metas dists !! i = Some r ∧
       format_result reply i w = (Ok r, w).
Proof.
  intros Hi.
  destruct (lookup_lt_is_Some_2 docs i Hi) as [d Hd].
  destruct (lookup_lt_is_Some_2 metas i ltac:(lia)) as [m Hm].
  destruct (lookup_lt_is_Some_2 dists i ltac:(lia)) as [x Hx].
  eexists. split; [by apply paired_results_lookup|].
  unfold format_result, mbind, M_bind, index.
  rewrite reply_docs, reply_metas, reply_dists. simpl.
  rewrite Hd, Hm, Hx. done.
Qed.

Lemma for_each_format_result n k w :
  (k + n = length docs)%nat →
  for_each (format_result reply) (seq k n) w =
  (Ok (drop k (paired_results docs metas dists)), w).
Proof.
  revert k. induction n as [|n IH]; intros k Hk; simpl.
  - rewrite drop_ge; [done|]. rewrite paired_results_length by done. lia.
  - destruct (format_result_ok k w) as (r & Hr & Hfmt); [lia|].
    unfold mbind, M_bind at 1. rewrite Hfmt.
    unfold mbind, M_bind at 1. rewrite IH by lia. simpl.
    by rewrite <- (drop_S _ _ _ Hr).
Qed.

(** What [query_documents] answers to a well-formed reply of the
    store. *)
Lemma query_documents_ok query n_results w embedding :
  encode [query] = Ok embedding →
  collection_query (collection w) embedding n_results = Ok reply →
  query_documents query n_results w =
  (Ok (QueryResponse query (paired_results docs metas dists) (length docs)),
   logged (CallQuery embedding n_results) (logged (CallEncode [query]) w)).
Proof.
  intros Henc Hq.
  unfold query_documents, try_except.
  unfold mbind, M_bind at 1. unfold call_encode. rewrite Henc.
  unfold mbind, M_bind at 1. unfold call_query. simpl. rewrite Hq.
  unfold mbind, M_bind at 1. unfold index at 1. rewrite reply_docs. simpl.
  unfold mbind, M_bind at 1.
  rewrite (for_each_format_result (length docs) 0) by done.
  rewrite drop_0. simpl.
  by rewrite paired_results_length.
Qed.

End Retrieval.

(** C7: for a reply of the store whose distances are ascending and lie
    in [[0, 2]], [query_documents] answers the texts and metadata of the
    reply in its order, the [i]-th score being [1 -] the [i]-th distance;
    the scores are non-increasing and lie in [[-1, 1]]. *)
Theorem query_results_ranked `{Collaborators} query n_results w embedding
    reply docs metas dists :
  encode [query] = Ok embedding →
  collection_query (collection w) embedding n_results = Ok reply →
  documents reply !! 0%nat = Some docs →
  metadatas reply !! 0%nat = Some metas →
  distances reply !! 0%nat = Some dists →
  length metas = length docs → length dists = length docs →
  ascending dists → Forall (λ d, 0 <= d <= 2)%Q dists →
  ∃ resp w',
    query_documents query n_results w = (Ok resp, w') ∧
    content <$> results resp = docs ∧
    qr_metadata <$> results resp = metas ∧
    similarity_score <$> results resp = (λ d, 1 - d)%Q <$> dists ∧
    non_increasing (similarity_score <$> results resp) ∧
    Forall (λ s, -1 <= s <= 1)%Q (similarity_score <$> results resp).
Proof.
  intros Henc Hq Hdocs Hmetas Hdists Hlm Hld Hasc Hrange.
  eexists _, _. split.
  { by apply (query_documents_ok reply docs metas dists). }
  simpl.
  destruct (paired_results_fields docs metas dists Hlm Hld) as (H1 & H2 & H3).
  rewrite H3. repeat split; try done.
  - by apply scores_non_increasing.
  - by apply scores_in_range.
Qed.

Lemma query_results_ranked_witness :
  let w := @World list_store two_records ∅ [] in
  ∃ resp w',
    @query_documents list_store (lit "q") 5 w = (Ok resp, w') ∧
    content <$> results resp = [lit "alpha"; lit "beta"] ∧
    qr_metadata <$> results resp =
      [Metadata (lit "d") (lit "f.pdf") 0 (lit "alpha");
       Metadata (lit "d") (lit "f.pdf") 1 (lit "beta")] ∧
    similarity_score <$> results resp = (λ d, 1 - d)%Q <$> [1 # 4; 3 # 2]%Q ∧
    non_increasing (similarity_score <$> results resp) ∧
    Forall (λ s, -1 <= s <= 1)%Q (similarity_score <$> results resp).
Proof.
  intros w.
  eapply (@query_results_ranked list_store (lit "q") 5 w);
    try reflexivity.
  - intros [|[|i]] [|[|j]] a b Hij Ha Hb; simpl in *;
      try discriminate; try lia;
      injection Ha as <-; injection Hb as <-;
      unfold Qle; simpl; lia.
  - repeat constructor; unfold Qle; simpl; lia.
Defined.

(** C8: when the store holds [m] chunks with [m <= n] and answers lists
    of [min(m, n)] items, [query_documents(q, n)] raises nothing and
    answers [m] results with [total_results] equal to [m]; with [m = 0]
    the list of results is empty. *)
Theorem query_returns_all_stored `{Collaborators} query n_results w embedding
    reply docs metas dists (m : nat) :
  encode [query] = Ok embedding →
  collection_query (collection w) embedding n_results = Ok reply →
  documents reply = [docs] →
  metadatas reply = [metas] →
  distances reply = [dists] →
  Z.of_nat m <= n_results →
  length docs = (m `min` Z.to_nat n_results)%nat →
  length metas = (m `min` Z.to_nat n_results)%nat →
  length dists = (m `min` Z.to_nat n_results)%nat →
  ∃ resp w',
    query_documents query n_results w = (Ok resp, w') ∧
    length (results resp) = m ∧
    total_results resp = m ∧
    (m = 0%nat → results resp = []).
Proof.
  intros Henc Hq Hdocs Hmetas Hdists Hm Hld Hlm Hlx.
  assert (Hlen : length docs = m) by lia.
  eexists _, _. split.
  { apply (query_documents_ok reply docs metas dists);
      rewrite ?Hdocs, ?Hmetas, ?Hdists; try done; lia. }
  simpl. rewrite paired_results_length by lia.
  repeat split; try done.
  intros ->. apply nil_length_inv.
  rewrite paired_results_length; lia.
Qed.

Lemma query_returns_all_stored_witness :
  let w := @World list_store two_records ∅ [] in
  ∃ resp w',
    @query_documents list_store (lit "anything") 5 w = (Ok resp, w') ∧
    length (results resp) = 2%nat ∧
    total_results resp = 2%nat ∧
    (2%nat = 0%nat → results resp = []).
Proof.
  intros w.
  eapply (@query_returns_all_stored list_store (lit "anything") 5 w);
    try reflexivity.
  lia.
Defined.

(** On an empty store the answer is an empty list, not an error. *)
Example query_empty_store :
  (@query_documents list_store (lit "anything") 5 (@World list_store [] ∅ [])).1
  = Ok (QueryResponse (lit "anything") [] 0).
Proof. reflexivity. Qed.

(** * Further properties of the code *)

(** ** The chunker *)

Section BlankText.

Lemma blank_lstrip s : blank s → lstrip s = [].
Proof.
  induction 1 as [|c s Hc _ IH]; simpl; [done|]. by rewrite Hc.
Qed.

Lemma blank_strip s : blank s → strip s = [].
Proof. intros Hs. unfold strip. by rewrite blank_lstrip. Qed.

Lemma blank_substring c t : substring c t → blank t → blank c.
Proof.
  intros (pre & post & ->) Hall. unfold blank in *.
  rewrite !Forall_app in Hall. tauto.
Qed.

Lemma nonempty_chunks_all_empty chunks :
  Forall (λ c : str, c = []) chunks → nonempty_chunks chunks = [].
Proof.
  unfold nonempty_chunks. induction 1 as [|c chunks Hc _ IH]; [done|].
  by rewrite filter_cons_False by auto.
Qed.

(** X1: a text of white space only, the empty text among them, gives no
    chunk, under every pair of parameters that lets the cursor advance. *)
Theorem chunk_text_blank text chunk_size overlap :
  blank text →
  0 <= overlap < chunk_size → overlap <= chunk_size / 2 + 1 →
  chunk_text_returns text chunk_size overlap [].
Proof.
  intros Hblank Hov Hcut.
  destruct (chunk_text_windows text chunk_size overlap Hov Hcut) as (ws & Hws & _).
  exists (S (length text)). rewrite Hws. f_equal.
  apply nonempty_chunks_all_empty, Forall_fmap, Forall_forall.
  intros w _. apply blank_strip.
  destruct (slice_substring text w.1 w.2) as (pre & post & Hsl).
  apply (blank_substring _ text); [|done]. by exists pre, post.
Qed.

Lemma chunk_text_blank_witness :
  chunk_text_returns (lit "    ") 1000 200 [].
Proof.
  apply chunk_text_blank.
  - repeat constructor.
  - lia.
  - vm_compute. discriminate.
Defined.

End BlankText.

Section ChunkCursor.

Variable text : str.
Variables chunk_size overlap : Z.
Hypothesis overlap_nonneg : 0 <= overlap.
Hypothesis overlap_below_size : overlap < chunk_size.
Hypothesis overlap_below_cut : overlap <= chunk_size / 2 + 1.

Lemma least_step_pos : 1 <= least_step chunk_size overlap.
Proof. unfold least_step. lia. Qed.

Lemma chunk_window_width start :
  0 <= start →
  let end_ := (chunk_window text chunk_size start).2 in
  start + Z.min chunk_size (chunk_size / 2 + 2) <= end_ <= start + chunk_size.
Proof.
  intros Hs. assert (Hcs : 0 <= chunk_size) by lia.
  pose proof (chunk_window_end text chunk_size start Hs Hcs) as Hend.
  cbv zeta in *. revert Hend.
  generalize (chunk_window text chunk_size start).2. intros end_ Hend. lia.
Qed.

(** Where the windows of a run lie: the [i]-th one starts at least [i]
    steps after the first cursor, before the end of the text, and its
    end is the one that [chunk_window] chooses from its start. *)
Lemma chunk_trace_cursor fuel start ws :
  0 <= start →
  chunk_trace fuel text chunk_size overlap start = Some ws →
  windows_overlap overlap ws ∧
  (∀ w, head ws = Some w → w.1 = start) ∧
  ∀ i w, ws !! i = Some w →
    start + Z.of_nat i * least_step chunk_size overlap <= w.1 < len text ∧
    w.2 = (chunk_window text chunk_size w.1).2.
Proof.
  unfold least_step.
  revert start ws. induction fuel as [|fuel IH]; intros start ws Hs; simpl; [done|].
  destruct (Z.ltb_spec start (len text)) as [Hlt|Hge].
  2:{ intros [= <-]. repeat split; done. }
  pose proof (chunk_window_width start Hs) as Hw. cbv zeta in Hw.
  set (end_ := (chunk_window text chunk_size start).2) in *.
  destruct (Z.geb_spec (end_ - overlap) (len text)) as [Hbrk|Hgo].
  - intros [= <-]. split; [done|]. split; [by intros w [= <-]|].
    intros [|i] w Hi; simpl in Hi; [|done].
    injection Hi as <-. simpl. split; [lia|done].
  - destruct (chunk_trace fuel _ _ _ _) as [rest|] eqn:Hrest; [|done].
    simpl. intros [= <-].
    destruct (IH (end_ - overlap) rest ltac:(lia) Hrest) as (Hov & Hhd & Hcur).
    split; [|split].
    + destruct rest as [|w2 rest]; [done|].
      split; [|done]. by rewrite (Hhd w2 eq_refl).
    + by intros w [= <-].
    + intros [|i] w Hi; simpl in Hi.
      * injection Hi as <-. simpl. split; [lia|done].
      * destruct (Hcur i w Hi) as [[Hlo Hhi] Hend]. split; [|done].
        split; [|done]. rewrite Nat2Z.inj_succ, Z.mul_succ_l. lia.
Qed.

Lemma chunk_trace_length fuel start ws :
  0 <= start → start < len text →
  chunk_trace fuel text chunk_size overlap start = Some ws →
  Z.of_nat (length ws) * least_step chunk_size overlap
    < len text - start + least_step chunk_size overlap.
Proof.
  intros Hs Hlt Htr. pose proof least_step_pos as Hstep.
  destruct (chunk_trace_cursor fuel start ws Hs Htr) as (_ & _ & Hcur).
  destruct (length ws) as [|n] eqn:Hn; [lia|].
  destruct (lookup_lt_is_Some_2 ws n ltac:(lia)) as [w Hw].
  destruct (Hcur n w Hw) as [[Hlo Hhi] _].
  rewrite Nat2Z.inj_succ, Z.mul_succ_l. lia.
Qed.

End ChunkCursor.

(** X2: under parameters that let the cursor advance, [chunk_text]
    returns the texts of windows each of which starts exactly [overlap]
    characters before the end of the one before it, starts inside the
    text, and is at most [chunk_size] and at least
    [min(chunk_size, chunk_size // 2 + 2)] characters wide. *)
Theorem chunk_text_windows_overlap text chunk_size overlap :
  0 <= overlap < chunk_size → overlap <= chunk_size / 2 + 1 →
  ∃ ws,
    chunk_text_returns text chunk_size overlap
      (nonempty_chunks (window_chunk text <$> ws)) ∧
    windows_overlap overlap ws ∧
    Forall (λ w, 0 <= w.1 < len text ∧
                 w.1 + Z.min chunk_size (chunk_size / 2 + 2) <= w.2
                   <= w.1 + chunk_size) ws.
Proof.
  intros [Hov Hlt] Hcut.
  destruct (chunk_trace_ends text chunk_size overlap Hov Hlt Hcut (length text) 0)
    as [ws Hws]; [lia|unfold len; lia|].
  exists ws. split.
  { exists (S (length text)). by rewrite chunk_text_fuel_trace, Hws. }
  destruct (chunk_trace_cursor text chunk_size overlap Hov Hlt Hcut _ 0 ws
              ltac:(lia) Hws) as (Hover & _ & Hcur).
  split; [done|]. apply Forall_lookup. intros i w Hi.
  destruct (Hcur i w Hi) as [[Hlo Hhi] Hend].
  pose proof (least_step_pos chunk_size overlap Hlt Hcut) as Hstep.
  assert (0 <= w.1) by nia.
  split; [lia|]. rewrite Hend.
  apply (chunk_window_width text chunk_size overlap); lia.
Qed.

Lemma chunk_text_windows_overlap_witness :
  ∃ ws,
    chunk_text_returns (lit "Sentence one. Sentence two. Sentence three.") 20 5
      (nonempty_chunks
         (window_chunk (lit "Sentence one. Sentence two. Sentence three.") <$> ws)) ∧
    windows_overlap 5 ws ∧
    Forall (λ w, 0 <= w.1 < len (lit "Sentence one. Sentence two. Sentence three.") ∧
                 w.1 + Z.min 20 (20 / 2 + 2) <= w.2 <= w.1 + 20) ws.
Proof.
  apply chunk_text_windows_overlap; [lia|].
  vm_compute. discriminate.
Defined.

(** X3: under parameters that let the cursor advance, the number [n] of
    chunks returned satisfies [n * step < len(text) + step], where [step]
    is the least advance [min(chunk_size - overlap,
    chunk_size // 2 + 2 - overlap)] of the cursor: 302 under the default
    parameters. *)
Theorem chunk_text_count_bound text chunk_size overlap r :
  0 <= overlap < chunk_size → overlap <= chunk_size / 2 + 1 →
  chunk_text_returns text chunk_size overlap r →
  Z.of_nat (length r) * least_step chunk_size overlap
    < len text + least_step chunk_size overlap.
Proof.
  intros [Hov Hlt] Hcut [fuel Hr].
  pose proof (least_step_pos chunk_size overlap Hlt Hcut) as Hstep.
  rewrite chunk_text_fuel_trace in Hr.
  destruct (chunk_trace fuel text chunk_size overlap 0) as [ws|] eqn:Hws; [|done].
  injection Hr as <-.
  assert (Hle : (length (nonempty_chunks (window_chunk text <$> ws)) ≤ length ws)%nat).
  { unfold nonempty_chunks. etrans; [apply length_filter|]. by rewrite length_fmap. }
  destruct (Z.lt_ge_cases 0 (len text)) as [Hpos|Hzero].
  - pose proof (chunk_trace_length text chunk_size overlap Hov Hlt Hcut
                  fuel 0 ws ltac:(lia) Hpos Hws).
    nia.
  - destruct fuel as [|fuel]; [done|]. simpl in Hws.
    destruct (Z.ltb_spec 0 (len text)); [lia|].
    injection Hws as <-. simpl. unfold len in *. lia.
Qed.

Lemma chunk_text_count_bound_witness :
  Z.of_nat (length [lit "Sentence one."; lit "one. Sentence two.";
                    lit "two. Sentence three."; lit "hree."])
    * least_step 20 5
  < len (lit "Sentence one. Sentence two. Sentence three.") + least_step 20 5.
Proof.
  apply (chunk_text_count_bound
           (lit "Sentence one. Sentence two. Sentence three.") 20 5).
  - lia.
  - vm_compute. discriminate.
  - exists 10%nat. vm_compute. reflexivity.
Defined.

(** With the cursor at or before the start of the text, the end chosen
    is at most [chunk_size]. *)
Lemma chunk_window_end_le text chunk_size start :
  0 <= chunk_size → start <= 0 →
  (chunk_window text chunk_size start).2 <= chunk_size.
Proof.
  intros Hcs Hs. unfold chunk_window.
  destruct (_ <? len text); [|simpl; lia].
  pose proof (rfind_bounds period (slice text start (start + chunk_size))).
  pose proof (rfind_bounds newline (slice text start (start + chunk_size))).
  assert (len (slice text start (start + chunk_size)) <= chunk_size).
  { etrans; [apply slice_len_le_width|]; lia. }
  destruct (_ >? _); simpl; lia.
Qed.

(** X4: with an overlap that is not below the chunk size,
    [0 <= chunk_size <= overlap], [chunk_text] returns for the empty
    text only: on any other text the cursor never gets past [0] and the
    loop never ends. *)
Theorem chunk_text_large_overlap text chunk_size overlap :
  0 <= chunk_size <= overlap →
  chunk_text_terminates text chunk_size overlap ↔ text = [].
Proof.
  intros [Hcs Hov]. split.
  - intros (r & fuel & Hr). destruct text as [|c text]; [done|]. exfalso.
    assert (Hloop : ∀ fuel start chunks, start <= 0 →
      chunk_loop fuel (c :: text) chunk_size overlap start chunks = None).
    { clear - Hcs Hov. intros fuel. induction fuel as [|fuel IH]; intros start chunks Hs; [done|].
      rewrite chunk_loop_step.
      assert (Hlen : 0 < len (c :: text)) by (unfold len; simpl; lia).
      destruct (Z.ltb_spec start (len (c :: text))); [|lia].
      pose proof (chunk_window_end_le (c :: text) chunk_size start) as Hend.
      destruct (chunk_window (c :: text) chunk_size start) as [chunk end_].
      simpl in Hend.
      destruct (Z.geb_spec (end_ - overlap) (len (c :: text))).
      - specialize (Hend Hcs Hs). lia.
      - apply IH. specialize (Hend Hcs Hs). lia. }
    unfold chunk_text_fuel in Hr. by rewrite Hloop in Hr.
  - intros ->. exists [], 1%nat. reflexivity.
Qed.

(** X5: under the default parameters only the first two chunks can end
    at a sentence boundary: from the third turn on, the cursor is at or
    past 604 and every window is the full window of 1000 characters. *)
Theorem chunk_text_default_hard_cuts text :
  ∃ ws,
    chunk_text_returns text 1000 200
      (nonempty_chunks (window_chunk text <$> ws)) ∧
    ∀ i w, (2 ≤ i)%nat → ws !! i = Some w →
      604 <= w.1 ∧ w.2 = w.1 + 1000.
Proof.
  destruct (chunk_trace_ends text 1000 200 ltac:(lia) ltac:(lia) ltac:(done)
              (length text) 0) as [ws Hws]; [lia|unfold len; lia|].
  exists ws. split.
  { exists (S (length text)). by rewrite chunk_text_fuel_trace, Hws. }
  destruct (chunk_trace_cursor text 1000 200 ltac:(lia) ltac:(lia) ltac:(done)
              _ 0 ws ltac:(lia) Hws) as (_ & _ & Hcur).
  intros i w Hi Hw. destruct (Hcur i w Hw) as [[Hlo _] Hend].
  change (least_step 1000 200) with 302 in Hlo.
  assert (604 <= w.1) by lia. split; [done|].
  rewrite Hend, chunk_window_never_cuts; [done|lia|].
  change (1000 / 2) with 500. lia.
Qed.

Section FirstCut.

Lemma slice_from_start {A} (s : list A) b :
  0 <= b → slice s 0 b = take (Z.to_nat b) s.
Proof.
  intros Hb. unfold slice, slice_index, len. simpl.
  destruct (Z.ltb_spec b 0); [lia|].
  replace (Z.to_nat (0 `min` _)) with 0%nat by lia. rewrite drop_0.
  destruct (Z.le_gt_cases b (Z.of_nat (length s))).
  - f_equal. lia.
  - rewrite !take_ge by lia. done.
Qed.

(** X6: at the first turn, when the chunk is cut short, it is the text
    up to and including the last period or newline of the first
    [chunk_size] characters, which lies after the midpoint. *)
Theorem chunk_window_first_cut text chunk_size :
  0 <= chunk_size →
  (chunk_window text chunk_size 0).2 ≠ chunk_size →
  let chunk := (chunk_window text chunk_size 0).1 in
  let end_ := (chunk_window text chunk_size 0).2 in
  chunk = take (Z.to_nat end_) text ∧
  len chunk = end_ ∧
  chunk_size / 2 + 1 < end_ < chunk_size ∧
  (last chunk = Some period ∨ last chunk = Some newline) ∧
  ∀ i, end_ <= Z.of_nat i < chunk_size →
    text !! i ≠ Some period ∧ text !! i ≠ Some newline.
Proof.
  intros Hcs. unfold chunk_window. rewrite !Z.add_0_l.
  destruct (chunk_size <? len text); [|done].
  rewrite (slice_from_start text chunk_size Hcs).
  set (full := take (Z.to_nat chunk_size) text).
  pose proof (rfind_bounds period full) as Hp.
  pose proof (rfind_bounds newline full) as Hn.
  assert (Hfull : len full <= chunk_size ∧ len full <= len text).
  { unfold full, len. rewrite length_take. lia. }
  destruct (Z.gtb_spec (rfind period full `max` rfind newline full)
              (chunk_size / 2)) as [Hgt|]; [|done].
  simpl. intros Hne.
  pose proof (Z.div_pos chunk_size 2 Hcs ltac:(lia)) as Hhalf.
  set (bp := rfind period full `max` rfind newline full) in *.
  assert (Hbp : 0 <= bp < len full) by lia.
  rewrite slice_from_start by lia.
  assert (Hlook : ∀ i, (Z.of_nat i < chunk_size) → full !! i = text !! i).
  { intros i Hi. unfold full. apply lookup_take_lt. lia. }
  split; [done|]. split; [|split; [|split]].
  - unfold len in *. rewrite length_take. lia.
  - lia.
  - rewrite last_lookup, length_take.
    replace (Init.Nat.pred _) with (Z.to_nat bp) by (unfold len in *; lia).
    rewrite lookup_take_lt by lia.
    rewrite <- Hlook by lia.
    destruct (Z.max_spec (rfind period full) (rfind newline full)) as [[_ Hm]|[_ Hm]];
      fold bp in Hm; rewrite Hm.
    + right. apply rfind_found. lia.
    + left. apply rfind_found. lia.
  - intros i Hi. rewrite <- Hlook by lia. split; apply rfind_last; lia.
Qed.

Lemma chunk_window_first_cut_witness :
  let text := lit "Sentence one. Sentence two. Sentence three." in
  let chunk := (chunk_window text 20 0).1 in
  let end_ := (chunk_window text 20 0).2 in
  chunk = take (Z.to_nat end_) text ∧
  len chunk = end_ ∧
  20 / 2 + 1 < end_ < 20 ∧
  (last chunk = Some period ∨ last chunk = Some newline) ∧
  ∀ i, end_ <= Z.of_nat i < 20 →
    text !! i ≠ Some period ∧ text !! i ≠ Some newline.
Proof.
  intros text.
  apply (chunk_window_first_cut text 20); [lia|].
  vm_compute. discriminate.
Defined.

End FirstCut.

(** ** Ingestion *)

Section DefaultChunks.

(** The chunks of a document, under the default parameters. *)
Lemma chunk_text_default_chunks text :
  Forall (λ chunk, chunk ≠ [] ∧ trimmed chunk ∧ substring chunk text ∧
                   (length chunk ≤ 1000)%nat)
    (chunk_text_default text).
Proof.
  destruct (chunk_text_default_returns text) as [fuel Hr].
  unfold chunk_text_fuel in Hr.
  destruct (chunk_loop _ _ _ _ _ _) as [chunks|] eqn:Hloop; [|done].
  injection Hr as Hr. rewrite <- Hr.
  apply (chunk_loop_Forall
    (λ chunk, trimmed chunk ∧ substring chunk text ∧ (length chunk ≤ 1000)%nat))
    in Hloop; [| |constructor].
  - unfold nonempty_chunks. apply Forall_forall. intros c Hc.
    apply list_elem_of_filter in Hc as [Hne Hc].
    rewrite Forall_forall in Hloop. specialize (Hloop c Hc). tauto.
  - intros s. split; [apply strip_trimmed|]. split.
    + eapply substring_trans; [apply strip_substring|].
      rewrite chunk_window_slice. apply slice_substring.
    + pose proof (strip_length (chunk_window text 1000 s).1).
      pose proof (chunk_window_len text 1000 s ltac:(lia)).
      unfold len in *. lia.
Qed.


Lemma preview_length chunk : (length (preview chunk) ≤ 203)%nat.
Proof.
  unfold preview, len, slice_to, slice_index.
  destruct (Z.gtb_spec (Z.of_nat (length chunk)) 200).
  - rewrite length_app, length_take. simpl. lia.
  - lia.
Qed.

End DefaultChunks.

Section IngestionSuccess.
Context `{Collaborators}.

Variables doc_id filename markdown_content : str.
Variable w : world.
Variable chunks : list str.
Hypothesis chunks_of_text : chunk_text_default markdown_content = chunks.

(** X7: when the embedder and the store answer, [add_document_to_store]
    raises nothing, the collection is the one the store answered, the
    registry maps the document identifier to the file name, the text and
    the number of chunks, and every other entry of the registry is as it
    was. *)
Theorem ingestion_success_registers embeddings st :
  encode chunks = Ok embeddings →
  collection_add (collection w) embeddings chunks
    (metadatas_of doc_id filename chunks) (chunk_ids_of doc_id chunks) = Ok st →
  ∃ w',
    add_document_to_store doc_id filename markdown_content w = (Ok (), w') ∧
    collection w' = st ∧
    document_store w' !! doc_id =
      Some (DocInfo filename markdown_content (length chunks) doc_id) ∧
    (∀ other, other ≠ doc_id →
       document_store w' !! other = document_store w !! other) ∧
    calls w' = calls w ++
      [CallEncode chunks;
       CallAdd embeddings chunks (metadatas_of doc_id filename chunks)
         (chunk_ids_of doc_id chunks)].
Proof.
  intros Henc Hadd.
  rewrite (add_document_succeeds doc_id filename markdown_content w chunks
             chunks_of_text embeddings st Henc Hadd).
  eexists. split; [done|]. simpl. repeat split.
  - apply lookup_insert_eq.
  - intros other Hne. by apply lookup_insert_ne.
Qed.

(** X8: whenever [add_document_to_store] reaches [collection.add], the
    identifiers, the texts and the metadata it passes are lists of the
    same length, no identifier comes twice, no text is empty or longer
    than 1000 characters, and no preview is longer than 203
    characters. *)
Theorem ingestion_store_arguments embeddings :
  encode chunks = Ok embeddings →
  ∃ metas ids,
    calls (add_document_to_store doc_id filename markdown_content w).2 =
      calls w ++ [CallEncode chunks; CallAdd embeddings chunks metas ids] ∧
    length ids = length chunks ∧
    length metas = length chunks ∧
    NoDup ids ∧
    Forall (λ chunk : str, chunk ≠ [] ∧ (length chunk ≤ 1000)%nat) chunks ∧
    Forall (λ m, (length (md_chunk_text m) ≤ 203)%nat) metas.
Proof.
  intros Henc.
  exists (metadatas_of doc_id filename chunks), (chunk_ids_of doc_id chunks).
  split; [|repeat split].
  - destruct (collection_add (collection w) embeddings chunks
      (metadatas_of doc_id filename chunks) (chunk_ids_of doc_id chunks))
      as [st|e] eqn:Hadd.
    + by rewrite (add_document_succeeds doc_id filename markdown_content w chunks
                    chunks_of_text embeddings st Henc Hadd).
    + rewrite (add_document_add_fails doc_id filename markdown_content w chunks
                 chunks_of_text embeddings e Henc Hadd).
      simpl. by rewrite <- app_assoc.
  - unfold chunk_ids_of. by rewrite length_fmap, length_seq.
  - apply length_imap.
  - apply chunk_ids_NoDup.
  - rewrite <- chunks_of_text.
    eapply Forall_impl; [apply chunk_text_default_chunks|].
    intros c (Hne & _ & _ & Hlen). done.
  - unfold metadatas_of. apply Forall_lookup. intros i m.
    rewrite list_lookup_imap.
    destruct (chunks !! i) as [c|]; simpl; [|done].
    intros [= <-]. simpl. apply preview_length.
Qed.

End IngestionSuccess.

Lemma ingestion_success_registers_witness :
  let w := @World list_store [] ∅ [] in
  let chunks := [lit "Hello. World."] in
  ∃ w',
    @add_document_to_store list_store (lit "doc") (lit "f.pdf")
      (lit "Hello. World.") w = (Ok (), w') ∧
    collection w' =
      [(lit "Hello. World.",
        Metadata (lit "doc") (lit "f.pdf") 0 (lit "Hello. World."), 0%Q)] ∧
    document_store w' !! lit "doc" =
      Some (DocInfo (lit "f.pdf") (lit "Hello. World.") (length chunks) (lit "doc")) ∧
    (∀ other, other ≠ lit "doc" →
       document_store w' !! other = document_store w !! other) ∧
    calls w' = calls w ++
      [CallEncode chunks;
       @CallAdd list_store [()] chunks
         (metadatas_of (lit "doc") (lit "f.pdf") chunks)
         (chunk_ids_of (lit "doc") chunks)].
Proof.
  intros w chunks.
  apply (@ingestion_success_registers list_store).
  - vm_compute. reflexivity.
  - reflexivity.
  - reflexivity.
Defined.

Lemma ingestion_store_arguments_witness :
  let w := @World list_store [] ∅ [] in
  let chunks := [lit "Hello. World."] in
  ∃ metas ids,
    calls (@add_document_to_store list_store (lit "doc") (lit "f.pdf")
             (lit "Hello. World.") w).2 =
      calls w ++ [CallEncode chunks; @CallAdd list_store [()] chunks metas ids] ∧
    length ids = length chunks ∧
    length metas = length chunks ∧
    NoDup ids ∧
    Forall (λ chunk : str, chunk ≠ [] ∧ (length chunk ≤ 1000)%nat) chunks ∧
    Forall (λ m, (length (md_chunk_text m) ≤ 203)%nat) metas.
Proof.
  intros w chunks.
  apply (@ingestion_store_arguments list_store).
  - vm_compute. reflexivity.
  - reflexivity.
Defined.



(** ** Retrieval *)

Section RetrievalErrors.
Context `{Collaborators}.

Lemma format_result_cases reply i w :
  (∃ doc meta dist,
     reply_item (documents reply) i = Some doc ∧
     reply_item (metadatas reply) i = Some meta ∧
     reply_item (distances reply) i = Some dist ∧
     format_result reply i w = (Ok (QueryResult doc meta (1 - dist)%Q), w)) ∨
  ((reply_item (documents reply) i = None ∨
    reply_item (metadatas reply) i = None ∨
    reply_item (distances reply) i = None) ∧
   format_result reply i w = (Err (lit "list index out of range"), w)).
Proof.
  unfold format_result, reply_item, mbind, M_bind, index.
  destruct (documents reply !! 0%nat) as [docs|]; simpl; [|right; auto].
  destruct (docs !! i) as [doc|]; simpl; [|right; auto].
  destruct (metadatas reply !! 0%nat) as [metas|]; simpl; [|right; auto].
  destruct (metas !! i) as [meta|]; simpl; [|right; auto].
  destruct (distances reply !! 0%nat) as [dists|]; simpl; [|right; auto].
  destruct (dists !! i) as [dist|]; simpl; [|right; auto].
  left. eexists _, _, _. repeat split; reflexivity.
Qed.

Lemma for_each_cons {A B} (f : A → M B) x l w :
  for_each f (x :: l) w =
  match f x w with
  | (Ok y, w') =>
      match for_each f l w' with
      | (Ok ys, w'') => (Ok (y :: ys), w'')
      | (Err e, w'') => (Err e, w'')
      end
  | (Err e, w') => (Err e, w')
  end.
Proof.
  simpl. unfold mbind, M_bind.
  destruct (f x w) as [[y|e] w']; [|done].
  by destruct (for_each f l w') as [[ys|e] w''].
Qed.

(** The loop that formats the answer leaves the state as it is, and
    raises as soon as one index is out of range. *)
Lemma for_each_format_cases reply l w :
  (∃ rs, for_each (format_result reply) l w = (Ok rs, w) ∧
         length rs = length l ∧
         ∀ i, i ∈ l → ∃ r, format_result reply i w = (Ok r, w)) ∨
  for_each (format_result reply) l w = (Err (lit "list index out of range"), w).
Proof.
  induction l as [|i l IH].
  - left. exists []. repeat split. intros i Hi. by apply elem_of_nil in Hi.
  - rewrite for_each_cons.
    destruct (format_result_cases reply i w)
      as [(doc & meta & dist & _ & _ & _ & Hfi)|[_ Hfi]]; rewrite Hfi;
      [|by right].
    destruct IH as [(rs & Hrs & Hlen & Hall)|Hrs]; rewrite Hrs; [|by right].
    left. eexists. split; [done|]. simpl. split; [by rewrite Hlen|].
    intros j Hj. apply elem_of_cons in Hj as [->|Hj]; [|by apply Hall].
    by eexists.
Qed.

End RetrievalErrors.

Section RetrievalOutcomes.
Context `{Collaborators}.

Lemma query_documents_unfold query n_results w :
  query_documents query n_results w =
  match encode [query] with
  | Err e =>
      (Err (HTTPException 500 (lit "Error querying documents: " ++ e)),
       logged (CallEncode [query]) w)
  | Ok embedding =>
      let w1 := logged (CallQuery embedding n_results)
                  (logged (CallEncode [query]) w) in
      match collection_query (collection w) embedding n_results with
      | Err e =>
          (Err (HTTPException 500 (lit "Error querying documents: " ++ e)), w1)
      | Ok reply =>
          match documents reply !! 0%nat with
          | None =>
              (Err (HTTPException 500
                      (lit "Error querying documents: "
                         ++ lit "list index out of range")), w1)
          | Some docs =>
              match for_each (format_result reply) (seq 0 (length docs)) w1 with
              | (Ok rs, w2) => (Ok (QueryResponse query rs (length rs)), w2)
              | (Err e, w2) =>
                  (Err (HTTPException 500
                          (lit "Error querying documents: " ++ e)), w2)
              end
          end
      end
  end.
Proof.
  unfold query_documents, try_except, mbind, M_bind, call_encode, call_query, index.
  destruct (encode [query]) as [embedding|e]; [|done]. simpl.
  destruct (collection_query (collection w) embedding n_results) as [reply|e];
    [|done].
  destruct (documents reply !! 0%nat) as [docs|]; [|done]. simpl.
  by destruct (for_each _ _ _) as [[rs|e] w2].
Qed.

Lemma query_documents_state query n_results w :
  let w' := (query_documents query n_results w).2 in
  document_store w' = document_store w ∧
  collection w' = collection w ∧
  (calls w' = calls w ++ [CallEncode [query]] ∨
   ∃ embedding,
     encode [query] = Ok embedding ∧
     calls w' = calls w ++ [CallEncode [query]; CallQuery embedding n_results]).
Proof.
  rewrite query_documents_unfold.
  destruct (encode [query]) as [embedding|e]; [|simpl; auto].
  assert (Hcalls : ∀ w1 : world,
    w1 = logged (CallQuery embedding n_results) (logged (CallEncode [query]) w) →
    document_store w1 = document_store w ∧ collection w1 = collection w ∧
    (calls w1 = calls w ++ [CallEncode [query]] ∨
     ∃ embedding0, Ok embedding = Ok embedding0 (E:=str) ∧
       calls w1 = calls w ++ [CallEncode [query]; CallQuery embedding0 n_results])).
  { intros w1 ->. simpl. repeat split. right. exists embedding.
    by rewrite <- app_assoc. }
  cbv zeta.
  destruct (collection_query (collection w) embedding n_results) as [reply|e];
    [|by apply Hcalls].
  destruct (documents reply !! 0%nat) as [docs|]; [|by apply Hcalls].
  destruct (for_each_format_cases reply (seq 0 (length docs))
              (logged (CallQuery embedding n_results)
                 (logged (CallEncode [query]) w)))
    as [(rs & -> & _)| ->]; by apply Hcalls.
Qed.

(** X10: [query_documents] never writes: whatever the embedder and the
    store do, the registry and the collection are as they were; the
    embedder is called once, with the query alone, and the store at most
    once, for [n_results] neighbours. *)
Theorem query_documents_reads_only query n_results w :
  let w' := (query_documents query n_results w).2 in
  document_store w' = document_store w ∧
  collection w' = collection w ∧
  (calls w' = calls w ++ [CallEncode [query]] ∨
   ∃ embedding,
     encode [query] = Ok embedding ∧
     calls w' = calls w ++ [CallEncode [query]; CallQuery embedding n_results]).
Proof. apply query_documents_state. Qed.

(** X11: when the embedder or the store raises, [query_documents] raises
    an [HTTPException] of status 500 whose detail is
    ["Error querying documents: "] followed by the message of the
    cause. *)
Theorem query_failure_reported query n_results w e :
  (encode [query] = Err e ∨
   ∃ embedding,
     encode [query] = Ok embedding ∧
     collection_query (collection w) embedding n_results = Err e) →
  (query_documents query n_results w).1 =
  Err (HTTPException 500 (lit "Error querying documents: " ++ e)).
Proof.
  rewrite query_documents_unfold.
  intros [->|(embedding & -> & Hq)]; [done|]. cbv zeta. by rewrite Hq.
Qed.

(** X12: when the reply of the store lacks its list of texts, or holds
    fewer metadata or fewer distances than texts, [query_documents]
    answers no partial list: it raises an [HTTPException] of status 500
    with the message of the [IndexError]. *)
Theorem query_malformed_reply query n_results w embedding reply :
  encode [query] = Ok embedding →
  collection_query (collection w) embedding n_results = Ok reply →
  reply_too_short reply →
  (query_documents query n_results w).1 =
  Err (HTTPException 500
         (lit "Error querying documents: " ++ lit "list index out of range")).
Proof.
  intros Henc Hq Hshort. rewrite query_documents_unfold, Henc. cbv zeta.
  rewrite Hq. unfold reply_too_short in Hshort.
  destruct (documents reply !! 0%nat) as [docs|] eqn:Hdocs; [|done].
  destruct (for_each_format_cases reply (seq 0 (length docs))
              (logged (CallQuery embedding n_results)
                 (logged (CallEncode [query]) w)))
    as [(rs & _ & _ & Hall)| ->]; [exfalso|done].
  assert (Hbad : ∃ i, (i < length docs)%nat ∧
            (reply_item (metadatas reply) i = None ∨
             reply_item (distances reply) i = None)).
  { unfold reply_item. destruct Hshort as [Hm|Hd].
    - exists (length (default [] (metadatas reply !! 0%nat))). split; [done|].
      left. destruct (metadatas reply !! 0%nat) as [metas|]; [|done].
      simpl. by apply lookup_ge_None.
    - exists (length (default [] (distances reply !! 0%nat))). split; [done|].
      right. destruct (distances reply !! 0%nat) as [dists|]; [|done].
      simpl. by apply lookup_ge_None. }
  destruct Hbad as (i & Hi & Hnone).
  destruct (Hall i) as [r Hr]; [apply elem_of_seq; lia|].
  destruct (format_result_cases reply i
              (logged (CallQuery embedding n_results)
                 (logged (CallEncode [query]) w)))
    as [(doc & meta & dist & _ & Hm & Hd & _)|[_ Herr]].
  - destruct Hnone; congruence.
  - congruence.
Qed.

End RetrievalOutcomes.

Lemma query_failure_reported_witness :
  (@query_documents failing_embedder (lit "q") 5
     (@World failing_embedder () ∅ [])).1 =
  Err (HTTPException 500
         (lit "Error querying documents: " ++ lit "model not loaded")).
Proof.
  apply (@query_failure_reported failing_embedder).
  left. reflexivity.
Defined.

Lemma query_malformed_reply_witness :
  (@query_documents short_reply_store (lit "q") 5
     (@World short_reply_store () ∅ [])).1 =
  Err (HTTPException 500
         (lit "Error querying documents: " ++ lit "list index out of range")).
Proof.
  eapply (@query_malformed_reply short_reply_store); try reflexivity.
  left. simpl. lia.
Defined.

(** ** The endpoints *)

Section EndpointLemmas.
Context `{Collaborators}.

(** [add_document_to_store] either raises with status 500 and leaves the
    registry and the collection as they were, or registers the
    document. *)
Lemma add_document_to_store_cases doc_id filename markdown_content w :
  let out := add_document_to_store doc_id filename markdown_content w in
  (∃ detail,
     out.1 = Err (HTTPException 500 detail) ∧
     document_store out.2 = document_store w ∧
     collection out.2 = collection w) ∨
  (out.1 = Ok () ∧
   document_store out.2 =
     <[doc_id := DocInfo filename markdown_content
                   (length (chunk_text_default markdown_content)) doc_id]>
       (document_store w)).
Proof.
  cbv zeta.
  destruct (encode (chunk_text_default markdown_content)) as [embeddings|e] eqn:Henc.
  - destruct (collection_add (collection w) embeddings
                (chunk_text_default markdown_content)
                (metadatas_of doc_id filename (chunk_text_default markdown_content))
                (chunk_ids_of doc_id (chunk_text_default markdown_content)))
      as [st|e] eqn:Hadd.
    + right.
      by rewrite (add_document_succeeds doc_id filename markdown_content w _
                    eq_refl embeddings st Henc Hadd).
    + left. eexists.
      by rewrite (add_document_add_fails doc_id filename markdown_content w _
                    eq_refl embeddings e Henc Hadd).
  - left. eexists.
    by rewrite (add_document_encode_fails doc_id filename markdown_content w _
                  eq_refl e Henc).
Qed.

(** X13: the query endpoint refuses a query of white space only with
    status 400 before anything is called; any other query reaches the
    embedder as it was typed, not trimmed, alone in its batch, and the
    store is asked for 5 neighbours.  The registry and the collection are
    never written. *)
Theorem query_endpoint_calls query w :
  let out := query_documents_endpoint query w in
  document_store out.2 = document_store w ∧
  collection out.2 = collection w ∧
  ((strip query = [] ∧
    out.1 = Err (HTTPException 400 (lit "Query cannot be empty")) ∧
    calls out.2 = calls w) ∨
   (strip query ≠ [] ∧
    (calls out.2 = calls w ++ [CallEncode [query]] ∨
     ∃ embedding,
       encode [query] = Ok embedding ∧
       calls out.2 = calls w ++ [CallEncode [query]; CallQuery embedding 5]))).
Proof.
  cbv zeta. unfold query_documents_endpoint.
  case_bool_decide as Hblank.
  - simpl. repeat split. by left.
  - destruct (query_documents_state query 5 w) as (Hreg & Hcol & Hcalls).
    repeat split; [done..|]. by right.
Qed.

End EndpointLemmas.

Section Upload.
Context `{Collaborators} `{Frontend}.

Variables (filename : str) (content : bytes) (doc_id temp_file_path : str).
Variable s : server.

(** The three ways the [try] block of [upload_pdf] can go; none of them
    touches the files. *)
Lemma upload_pdf_body_cases s1 :
  let out := upload_pdf_body filename doc_id temp_file_path s1 in
  files out.2 = files s1 ∧
  ((∃ e,
      convert (files s1) temp_file_path = Err e ∧
      out = (Err (Http (HTTPException 500 (lit "Error converting PDF: " ++ e))),
             s1)) ∨
   (∃ markdown_content detail,
      convert (files s1) temp_file_path = Ok markdown_content ∧
      out.1 = Err (Http (HTTPException 500 detail)) ∧
      document_store (rag out.2) = document_store (rag s1) ∧
      collection (rag out.2) = collection (rag s1)) ∨
   (∃ markdown_content,
      convert (files s1) temp_file_path = Ok markdown_content ∧
      out.1 = Ok (UploadResponse (lit "PDF processed successfully") doc_id
                    filename (length (chunk_text_default markdown_content))) ∧
      document_store (rag out.2) =
        <[doc_id := DocInfo filename markdown_content
                      (length (chunk_text_default markdown_content)) doc_id]>
          (document_store (rag s1)))).
Proof.
  cbv zeta. unfold upload_pdf_body, convert_pdf_to_markdown.
  destruct (convert (files s1) temp_file_path) as [markdown_content|e];
    [|split; [done|]; left; by eexists].
  pose proof (add_document_to_store_cases doc_id filename markdown_content (rag s1))
    as Hcases. cbv zeta in Hcases.
  destruct (add_document_to_store doc_id filename markdown_content (rag s1))
    as [[[]|e] w]; simpl in Hcases.
  - destruct Hcases as [(detail & Herr & _)|[_ Hreg]]; [done|].
    rewrite Hreg, lookup_insert_eq. simpl. split; [done|].
    right. right. by eexists.
  - destruct Hcases as [(detail & [= ->] & Hreg & Hcol)|[Hok _]]; [|done].
    simpl. split; [done|]. right. left. by eexists _, _.
Qed.

Lemma upload_pdf_accepted :
  endswith (lower filename) (lit ".pdf") = true →
  let s1 := Server _ (rag s) (<[temp_file_path := content]> (files s)) in
  let out := upload_pdf_body filename doc_id temp_file_path s1 in
  upload_pdf filename content doc_id temp_file_path s =
  (out.1, Server _ (rag out.2) (delete temp_file_path (files s1))).
Proof.
  intros Hpdf. cbv zeta. unfold upload_pdf. rewrite Hpdf. simpl.
  pose proof (upload_pdf_body_cases
    (Server _ (rag s) (<[temp_file_path := content]> (files s)))) as [Hfiles _].
  cbv zeta in Hfiles.
  destruct (upload_pdf_body _ _ _ _) as [r s2]. simpl in *.
  unfold unlink. by rewrite Hfiles, lookup_insert_eq.
Qed.

Lemma upload_pdf_refused :
  endswith (lower filename) (lit ".pdf") = false →
  upload_pdf filename content doc_id temp_file_path s =
  (Err (Http (HTTPException 400 (lit "Only PDF files are allowed"))), s).
Proof. intros Hpdf. unfold upload_pdf. by rewrite Hpdf. Qed.

(** X14: [upload_pdf] answers status 400 exactly when the lower-cased
    file name does not end with [.pdf]; it has then created no file,
    called nothing and written nothing. *)
Theorem upload_pdf_refusal :
  (∀ detail,
     (upload_pdf filename content doc_id temp_file_path s).1
       = Err (Http (HTTPException 400 detail)) ↔
     endswith (lower filename) (lit ".pdf") = false ∧
     detail = lit "Only PDF files are allowed") ∧
  (endswith (lower filename) (lit ".pdf") = false →
   (upload_pdf filename content doc_id temp_file_path s).2 = s).
Proof.
  destruct (endswith (lower filename) (lit ".pdf")) eqn:Hpdf.
  - split; [|done]. intros detail. rewrite (upload_pdf_accepted Hpdf). simpl.
    pose proof (upload_pdf_body_cases
      (Server _ (rag s) (<[temp_file_path := content]> (files s))))
      as [_ Hcases]. cbv zeta in Hcases.
    split; [|by intros [? _]]. intros Hout. exfalso.
    destruct Hcases as [(e & _ & Hbody)|[(md & d & _ & Hbody & _)|(md & _ & Hbody & _)]].
    + rewrite Hbody in Hout. done.
    + rewrite Hbody in Hout. done.
    + rewrite Hbody in Hout. done.
  - rewrite (upload_pdf_refused Hpdf). simpl. split; [|done].
    intros detail. split; [by intros [= <-]|by intros [_ ->]].
Qed.

(** X15: once the upload is read and the temporary file written,
    whichever way [upload_pdf] ends, the temporary file is gone: the
    files are those there were before the request.  Neither the removal
    of the file nor the reading of the chunk count from the registry
    ever raises. *)
Theorem upload_pdf_cleans_up :
  files s !! temp_file_path = None →
  let out := upload_pdf filename content doc_id temp_file_path s in
  files out.2 = files s ∧
  (∀ key, out.1 ≠ Err (KeyError key)) ∧
  (∀ path, out.1 ≠ Err (FileNotFoundError path)).
Proof.
  intros Hfresh. cbv zeta.
  destruct (endswith (lower filename) (lit ".pdf")) eqn:Hpdf.
  - rewrite (upload_pdf_accepted Hpdf). simpl.
    split; [by apply delete_insert_id|].
    pose proof (upload_pdf_body_cases
      (Server _ (rag s) (<[temp_file_path := content]> (files s))))
      as [_ Hcases]. cbv zeta in Hcases.
    destruct Hcases as [(e & _ & Hbody)|[(md & d & _ & Hbody & _)|(md & _ & Hbody & _)]];
      rewrite Hbody; done.
  - by rewrite (upload_pdf_refused Hpdf).
Qed.

(** X16: when [upload_pdf] answers, the converter has answered a text,
    the answer names the document identifier and the file name of the
    request, and its chunk count is the number of chunks of that text,
    which the registry holds for the document. *)
Theorem upload_pdf_success resp :
  (upload_pdf filename content doc_id temp_file_path s).1 = Ok resp →
  endswith (lower filename) (lit ".pdf") = true ∧
  ∃ markdown_content,
    convert (<[temp_file_path := content]> (files s)) temp_file_path
      = Ok markdown_content ∧
    resp = UploadResponse (lit "PDF processed successfully") doc_id filename
             (length (chunk_text_default markdown_content)) ∧
    document_store (rag (upload_pdf filename content doc_id temp_file_path s).2)
      !! doc_id =
    Some (DocInfo filename markdown_content
            (length (chunk_text_default markdown_content)) doc_id).
Proof.
  destruct (endswith (lower filename) (lit ".pdf")) eqn:Hpdf.
  2:{ by rewrite (upload_pdf_refused Hpdf). }
  rewrite (upload_pdf_accepted Hpdf). simpl. intros Hout. split; [done|].
  pose proof (upload_pdf_body_cases
    (Server _ (rag s) (<[temp_file_path := content]> (files s))))
    as [_ Hcases]. cbv zeta in Hcases. simpl in Hcases.
  destruct Hcases as [(e & _ & Hbody)|[(md & d & _ & Hbody & _)|(md & Hconv & Hbody & Hreg)]].
  - rewrite Hbody in Hout. done.
  - rewrite Hbody in Hout. done.
  - exists md. split; [done|]. rewrite Hbody in Hout. injection Hout as <-.
    split; [done|]. rewrite Hreg. apply lookup_insert_eq.
Qed.

(** X17: when the converter raises, [upload_pdf] raises an
    [HTTPException] of status 500 whose detail is
    ["Error converting PDF: "] followed by the message of the cause, and
    the server is as it was before the request: nothing was embedded or
    stored, the registry is untouched and the temporary file is gone. *)
Theorem upload_pdf_conversion_failure e :
  endswith (lower filename) (lit ".pdf") = true →
  files s !! temp_file_path = None →
  convert (<[temp_file_path := content]> (files s)) temp_file_path = Err e →
  upload_pdf filename content doc_id temp_file_path s =
  (Err (Http (HTTPException 500 (lit "Error converting PDF: " ++ e))), s).
Proof.
  intros Hpdf Hfresh Hconv. rewrite (upload_pdf_accepted Hpdf). simpl.
  unfold upload_pdf_body, convert_pdf_to_markdown. simpl. rewrite Hconv. simpl.
  rewrite delete_insert_id by done. by destruct s.
Qed.

End Upload.

Section Listing.
Context `{Collaborators}.

Lemma list_documents_ids w :
  de_doc_id <$> list_documents w = (map_to_list (document_store w)).*1.
Proof.
  unfold list_documents. rewrite <- list_fmap_compose. by apply list_fmap_ext.
Qed.

Lemma elem_of_list_documents w entry :
  entry ∈ list_documents w ↔
  ∃ info,
    document_store w !! de_doc_id entry = Some info ∧
    de_filename entry = di_filename info ∧
    de_chunk_count entry = di_chunk_count info.
Proof.
  unfold list_documents. rewrite list_elem_of_fmap. split.
  - intros ([k info] & -> & Hin). apply elem_of_map_to_list in Hin.
    by exists info.
  - intros (info & Hin & Hf & Hc). exists (de_doc_id entry, info). split.
    + destruct entry. simpl in *. by subst.
    + by apply elem_of_map_to_list.
Qed.

(** X18: [list_documents] lists the registry: an item is in the list
    exactly when the registry maps its identifier to an entry with its
    file name and chunk count, and no identifier is listed twice. *)
Theorem list_documents_lists_registry w :
  NoDup (de_doc_id <$> list_documents w) ∧
  ∀ entry,
    entry ∈ list_documents w ↔
    ∃ info,
      document_store w !! de_doc_id entry = Some info ∧
      de_filename entry = di_filename info ∧
      de_chunk_count entry = di_chunk_count info.
Proof.
  split.
  - rewrite list_documents_ids. apply NoDup_fst_map_to_list.
  - apply elem_of_list_documents.
Qed.

End Listing.

(** X19: after [upload_pdf] has answered, [list_documents] lists the
    document with the identifier, the file name and the chunk count of
    the answer. *)
Theorem upload_pdf_then_list `{Collaborators} `{Frontend}
    filename content doc_id temp_file_path s resp :
  (upload_pdf filename content doc_id temp_file_path s).1 = Ok resp →
  DocumentEntry (ur_document_id resp) (ur_filename resp) (ur_chunk_count resp)
    ∈ list_documents (rag (upload_pdf filename content doc_id temp_file_path s).2).
Proof.
  destruct (endswith (lower filename) (lit ".pdf")) eqn:Hpdf.
  2:{ by rewrite (upload_pdf_refused filename content doc_id temp_file_path s Hpdf). }
  rewrite (upload_pdf_accepted filename content doc_id temp_file_path s Hpdf).
  simpl. intros Hout.
  pose proof (upload_pdf_body_cases filename doc_id temp_file_path
    (Server _ (rag s) (<[temp_file_path := content]> (files s))))
    as [_ Hcases]. cbv zeta in Hcases. simpl in Hcases.
  destruct Hcases as [(e & _ & Hbody)|[(md & d & _ & Hbody & _)|(md & Hconv & Hbody & Hreg)]].
  - rewrite Hbody in Hout. done.
  - rewrite Hbody in Hout. done.
  - rewrite Hbody in Hout. injection Hout as <-. simpl.
    apply elem_of_list_documents. eexists. simpl.
    rewrite Hreg, lookup_insert_eq. done.
Qed.

Lemma upload_pdf_cleans_up_witness :
  let out := @upload_pdf list_store plain_frontend (lit "Report.PDF")
               (lit "Hello. World.") (lit "doc-1") (lit "/tmp/tmp1.pdf")
               empty_server in
  files out.2 = files empty_server ∧
  (∀ key, out.1 ≠ Err (KeyError key)) ∧
  (∀ path, out.1 ≠ Err (FileNotFoundError path)).
Proof.
  apply (@upload_pdf_cleans_up list_store plain_frontend).
  reflexivity.
Defined.

Lemma upload_pdf_success_witness :
  let out := @upload_pdf list_store plain_frontend (lit "Report.PDF")
               (lit "Hello. World.") (lit "doc-1") (lit "/tmp/tmp1.pdf")
               empty_server in
  @endswith (@lower plain_frontend (lit "Report.PDF")) (lit ".pdf") = true ∧
  ∃ markdown_content,
    @convert plain_frontend
      (<[lit "/tmp/tmp1.pdf" := lit "Hello. World."]> (files empty_server))
      (lit "/tmp/tmp1.pdf") = Ok markdown_content ∧
    UploadResponse (lit "PDF processed successfully") (lit "doc-1")
      (lit "Report.PDF") 1 =
    UploadResponse (lit "PDF processed successfully") (lit "doc-1")
      (lit "Report.PDF") (length (chunk_text_default markdown_content)) ∧
    document_store (rag out.2) !! lit "doc-1" =
    Some (DocInfo (lit "Report.PDF") markdown_content
            (length (chunk_text_default markdown_content)) (lit "doc-1")).
Proof.
  apply (@upload_pdf_success list_store plain_frontend).
  vm_compute. reflexivity.
Defined.

Lemma upload_pdf_conversion_failure_witness :
  @upload_pdf list_store plain_frontend (lit "Report.PDF") [] (lit "doc-1")
    (lit "/tmp/tmp1.pdf") empty_server =
  (Err (Http (HTTPException 500 (lit "Error converting PDF: " ++ lit "empty file"))),
   empty_server).
Proof.
  apply (@upload_pdf_conversion_failure list_store plain_frontend).
  - vm_compute. reflexivity.
  - reflexivity.
  - vm_compute. reflexivity.
Defined.

Lemma upload_pdf_then_list_witness :
  DocumentEntry (lit "doc-1") (lit "Report.PDF") 1
    ∈ list_documents
        (rag (@upload_pdf list_store plain_frontend (lit "Report.PDF")
                (lit "Hello. World.") (lit "doc-1") (lit "/tmp/tmp1.pdf")
                empty_server).2).
Proof.
  apply (@upload_pdf_then_list list_store plain_frontend (lit "Report.PDF")
           (lit "Hello. World.") (lit "doc-1") (lit "/tmp/tmp1.pdf") empty_server
           (UploadResponse (lit "PDF processed successfully") (lit "doc-1")
              (lit "Report.PDF") 1)).
  vm_compute. reflexivity.
Defined.

Lemma chunk_text_large_overlap_witness :
  chunk_text_terminates (lit "abc") 10 10 ↔ lit "abc" = [].
Proof. apply chunk_text_large_overlap. lia. Defined.

(** X20: when the converter answers a text and then the embedder or the
    store raises, [upload_pdf] raises the [HTTPException] of
    [add_document_to_store], of status 500 with the message of the cause
    in its detail; the registry and the collection are as they were and
    the temporary file is gone. *)
Theorem upload_pdf_ingestion_failure `{Collaborators} `{Frontend}
    filename content doc_id temp_file_path s markdown_content chunks e :
  endswith (lower filename) (lit ".pdf") = true →
  files s !! temp_file_path = None →
  convert (<[temp_file_path := content]> (files s)) temp_file_path
    = Ok markdown_content →
  chunk_text_default markdown_content = chunks →
  (encode chunks = Err e ∨
   ∃ embeddings,
     encode chunks = Ok embeddings ∧
     collection_add (collection (rag s)) embeddings chunks
       (metadatas_of doc_id filename chunks) (chunk_ids_of doc_id chunks)
       = Err e) →
  let out := upload_pdf filename content doc_id temp_file_path s in
  out.1 = Err (Http (HTTPException 500
                       (lit "Error adding document to store: " ++ e))) ∧
  document_store (rag out.2) = document_store (rag s) ∧
  collection (rag out.2) = collection (rag s) ∧
  files out.2 = files s.
Proof.
  intros Hpdf Hfresh Hconv Hchunks Hfail. cbv zeta.
  rewrite (upload_pdf_accepted filename content doc_id temp_file_path s Hpdf).
  simpl. unfold upload_pdf_body, convert_pdf_to_markdown. simpl.
  rewrite Hconv, delete_insert_id by done.
  destruct Hfail as [Henc|(embeddings & Henc & Hadd)].
  - by rewrite (add_document_encode_fails doc_id filename markdown_content (rag s)
                  chunks Hchunks e Henc).
  - by rewrite (add_document_add_fails doc_id filename markdown_content (rag s)
                  chunks Hchunks embeddings e Henc Hadd).
Qed.

Lemma upload_pdf_ingestion_failure_witness :
  let s0 := @Server failing_embedder (@World failing_embedder () ∅ []) ∅ in
  let out := @upload_pdf failing_embedder plain_frontend (lit "Report.PDF")
               (lit "Hello. World.") (lit "doc-1") (lit "/tmp/tmp1.pdf") s0 in
  out.1 = Err (Http (HTTPException 500
                       (lit "Error adding document to store: "
                          ++ lit "model not loaded"))) ∧
  document_store (rag out.2) = document_store (rag s0) ∧
  collection (rag out.2) = collection (rag s0) ∧
  files out.2 = files s0.
Proof.
  intros s0.
  eapply (@upload_pdf_ingestion_failure failing_embedder plain_frontend).
  - vm_compute. reflexivity.
  - reflexivity.
  - vm_compute. reflexivity.
  - reflexivity.
  - left. reflexivity.
Defined.
